(** * RemoteView: the streaming and input-injection protocol

    A shallow embedding of [remote_gui/host_logic.py],
    [remote_gui/client_logic.py] and [remote_gui/config.py].

    Python values are modelled as follows.
    - [bytes] is [list byte]; [len] is [len] below, an [N].
    - [str] is Rocq's [string]; a [str] obtained from [bytes.decode('utf-8')]
      is represented by its UTF-8 encoding.
    - [int] is [Z] (or [N] for lengths); [float] is the kernel's binary64.
    - Exceptions are explicit results: every call that can raise returns a
      sum whose constructors name the handler the source gives to it.
    - The attributes of [app_instance] the protocol reads and writes are
      the fields of the record [app]; printing appends to [stdout] and
      [master.after] appends to [ui_queue].  Where a message interpolates
      the text of an exception, the model keeps the fixed part of it. *)

From Stdlib Require Import ZArith NArith List Strings.String Strings.Ascii Strings.Byte Bool Lia.
From Stdlib Require Import DecimalString.
From Stdlib Require Import Floats.PrimFloat Floats.FloatOps Floats.SpecFloat.
From Equations Require Import Equations.
From Equations.Prop Require Import Logic.
Import ListNotations.

Set Implicit Arguments.
Set Warnings "-register-all".

(** ** config.py *)

Module Config.
Definition HOST_PORT : N := 12345.
Definition MAX_PACKET_SIZE : N := 65536.
Definition JPEG_QUALITY : N := 70.
End Config.

(** ** Python integers and bytes *)

Module Py.

Definition bytes := list byte.

Definition len (b : bytes) : N := N.of_nat (List.length b).

(** The byte whose value is [n mod 256]. *)
Definition byte_of_N (n : N) : byte :=
  match Byte.of_N (n mod 256) with
  | Some b => b
  | None => x00
  end.

(** [n.to_bytes(4, 'big')]: [None] stands for [OverflowError]. *)
Definition to_bytes4 (n : N) : option bytes :=
  if (n <? 4294967296)%N
  then Some [byte_of_N (n / 16777216); byte_of_N (n / 65536);
             byte_of_N (n / 256); byte_of_N n]
  else None.

(** [int.from_bytes(b, 'big')], for a byte string of any length. *)
Definition from_bytes (b : bytes) : N :=
  fold_left (fun acc x => (acc * 256 + Byte.to_N x)%N) b 0%N.

(** The exception classes the handlers of the source tell apart.
    [OtherError] is whatever only [except Exception] catches:
    [BrokenPipeError], [socket.timeout], [KeyError], [AttributeError],
    [UnicodeDecodeError], [OverflowError], ... *)
Inductive exn :=
| ConnectionResetError
| JSONDecodeError
| OtherError.

(** What a call that may raise gives back. *)
Inductive result (A : Type) :=
| Ok (a : A)
| Raise (e : exn).
Arguments Raise {A}.

(** [b[:k]] and [b[k:]] for [0 <= k]. *)
Definition take (k : N) (b : bytes) : bytes := firstn (N.to_nat k) b.
Definition drop (k : N) (b : bytes) : bytes := skipn (N.to_nat k) b.

End Py.

(** ** Sockets

    A connected stream socket as one endpoint sees it.  [inbound] holds the
    bytes the peer has written and this endpoint has not read yet; the peer
    writes nothing more, so once [inbound] is empty [recv] reports end of
    stream.  [arrivals] is the environment's schedule for the successive
    [recv] calls: how many of the pending bytes the call may hand over, or
    the exception it raises.  With an exhausted schedule every pending byte
    is available at once.  [departures] plays the same part for [sendall],
    and [outbound] collects what was written. *)

Module Sock.
Import Py.

Inductive recv_event :=
| Deliver (cap : N)        (* at most [cap + 1] bytes are handed over *)
| RecvReset                (* ConnectionResetError *)
| RecvError.               (* any other exception, e.g. BrokenPipeError *)

Inductive send_event :=
| SendOk
| SendReset                (* ConnectionResetError *)
| SendError.               (* any other exception, e.g. BrokenPipeError *)

Record socket := mkSocket {
  inbound : bytes;
  arrivals : list recv_event;
  outbound : bytes;
  departures : list send_event
}.

Definition set_inbound (s : socket) (b : bytes) (ev : list recv_event) :=
  mkSocket b ev (outbound s) (departures s).

(** [conn.recv(bufsize)]: up to [bufsize] of the pending bytes, [b''] at
    end of stream. *)
Definition recv (s : socket) (bufsize : N) : result bytes * socket :=
  match arrivals s with
  | [] =>
      (Ok (take bufsize (inbound s)),
       set_inbound s (drop bufsize (inbound s)) [])
  | Deliver cap :: ev =>
      let k := N.min bufsize (cap + 1) in
      (Ok (take k (inbound s)), set_inbound s (drop k (inbound s)) ev)
  | RecvReset :: ev =>
      (Raise ConnectionResetError, set_inbound s (inbound s) ev)
  | RecvError :: ev => (Raise OtherError, set_inbound s (inbound s) ev)
  end.

(** [conn.sendall(data)].  A failed call is taken to have written
    nothing. *)
Definition sendall (s : socket) (data : bytes) : result unit * socket :=
  let put ev := mkSocket (inbound s) (arrivals s) (outbound s ++ data) ev in
  let keep ev := mkSocket (inbound s) (arrivals s) (outbound s) ev in
  match departures s with
  | [] => (Ok tt, put [])
  | SendOk :: ev => (Ok tt, put ev)
  | SendReset :: ev => (Raise ConnectionResetError, keep ev)
  | SendError :: ev => (Raise OtherError, keep ev)
  end.

(** A schedule that raises nothing. *)
Definition quiet (ev : list recv_event) : Prop :=
  Forall (fun e => exists cap, e = Deliver cap) ev.

(** The first [recv] of the schedule hands over at least [n] bytes when
    that many are pending. *)
Definition first_whole (n : N) (ev : list recv_event) : Prop :=
  match ev with
  | [] => True
  | Deliver cap :: _ => (n <= cap + 1)%N
  | _ => False
  end.

(** No [sendall] on [s] raises. *)
Definition writable (s : socket) : Prop :=
  Forall (fun e => e = SendOk) (departures s).

(** The other end of the connection of [s]: everything written to [s] is
    still to be read there, under the schedule [ev]. *)
Definition far_end (s : socket) (ev : list recv_event) : socket :=
  mkSocket (outbound s) ev [] [].

End Sock.

(** ** Message framing

    Both directions frame a message the same way.  The writer is lines
    106-109 of [send_screen_data] and lines 205-209 of
    [send_input_command]; the reader is lines 139-155 of
    [receive_input_data] and lines 71-86 of [receive_screen_data]. *)

Module Framing.
Import Py Sock.

(** The bytes a writer puts on the wire for [payload]. *)
Definition frame (payload : bytes) : option bytes :=
  match to_bytes4 (len payload) with
  | Some header => Some (header ++ payload)
  | None => None
  end.

(** The two [sendall] calls of a writer.  [to_bytes] is evaluated first,
    so an [OverflowError] writes nothing. *)
Definition send_message (s : socket) (payload : bytes)
  : result unit * socket :=
  match to_bytes4 (len payload) with
  | None => (Raise OtherError, s)
  | Some header =>
      match sendall s header with
      | (Ok _, s1) => sendall s1 payload
      | (Raise e, s1) => (Raise e, s1)
      end
  end.

(** The accumulation loop,
    [while len(data) < msg_len: packet = conn.recv(min(msg_len - len(data), MAX_PACKET_SIZE)) ...].
    It returns the accumulated bytes when the loop ends, by its condition
    or by [break] on an empty packet. *)
Equations recv_payload (s : socket) (msg_len : N) (data : bytes)
  : result bytes * socket by wf (List.length (inbound s)) lt :=
  recv_payload s msg_len data with (len data <? msg_len)%N => {
    | false := (Ok data, s);
    | true
        with inspect (recv s (N.min (msg_len - len data)
                                    Config.MAX_PACKET_SIZE)) => {
      | exist _ (Ok [], s') _ := (Ok data, s');
      | exist _ (Ok (b :: p), s') e :=
          recv_payload s' msg_len (data ++ b :: p);
      | exist _ (Raise x, s') _ := (Raise x, s') } }.
Next Obligation.
  revert e. unfold recv, take, drop.
  destruct (arrivals s) as [|[cap| |] ev]; intro H; inversion H as [[Hd Hs]];
    clear H Hs; simpl; rewrite length_skipn.
  - destruct (N.to_nat _); [discriminate|].
    destruct (inbound s); [discriminate|simpl; lia].
  - destruct (N.to_nat _); [discriminate|].
    destruct (inbound s); [discriminate|simpl; lia].
Qed.

(** What one pass of a reader makes of the stream. *)
Inductive received :=
| Closed                    (* empty header read: [break] *)
| Incomplete (got : bytes)  (* short payload: message skipped, [continue] *)
| Message (payload : bytes) (* goes on to be interpreted *)
| Raised (e : exn).         (* [recv] raised *)

Definition recv_message (s : socket) : received * socket :=
  match recv s 4 with
  | (Ok [], s1) => (Closed, s1)
  | (Ok len_bytes, s1) =>
      let msg_len := from_bytes len_bytes in
      match recv_payload s1 msg_len [] with
      | (Ok data, s2) =>
          if (len data =? msg_len)%N
          then (Message data, s2)
          else (Incomplete data, s2)
      | (Raise e, s2) => (Raised e, s2)
      end
  | (Raise e, s1) => (Raised e, s1)
  end.

(** Progress of the reader: a pass that goes on to another pass has taken
    at least one byte off the stream. *)
Lemma recv_inbound_le s n r s' :
  recv s n = (r, s') -> List.length (inbound s') <= List.length (inbound s).
Proof.
  unfold recv, drop.
  destruct (arrivals s) as [|[cap| |] ev]; intro H; inversion H; simpl;
    try rewrite length_skipn; lia.
Qed.

Lemma recv_nonempty_lt s n b p s' :
  recv s n = (Ok (b :: p), s') ->
  List.length (inbound s') < List.length (inbound s).
Proof.
  unfold recv, take, drop.
  destruct (arrivals s) as [|[cap| |] ev]; intro H; inversion H as [[Hd Hs]];
    clear H Hs; simpl; rewrite length_skipn.
  - destruct (N.to_nat _); [discriminate|].
    destruct (inbound s); [discriminate|simpl; lia].
  - destruct (N.to_nat _); [discriminate|].
    destruct (inbound s); [discriminate|simpl; lia].
Qed.

Lemma recv_payload_inbound_le s n data :
  List.length (inbound (snd (recv_payload s n data)))
  <= List.length (inbound s).
Proof.
  funelim (recv_payload s n data); simpl;
    try match goal with
        | E : recv _ _ = _ |- _ =>
            pose proof (recv_inbound_le _ _ E); simpl in *
        end; lia.
Qed.

(** [recv] raises socket errors only. *)
Lemma recv_raises s n e s' :
  recv s n = (Raise e, s') -> e <> JSONDecodeError.
Proof.
  unfold recv.
  destruct (arrivals s) as [|[cap| |] ev]; intro H; inversion H;
    discriminate.
Qed.

Lemma recv_payload_raises s n data e s' :
  recv_payload s n data = (Raise e, s') -> e <> JSONDecodeError.
Proof.
  funelim (recv_payload s n data); intro R; try discriminate; eauto.
  inversion R; subst. eapply recv_raises; eauto.
Qed.

Lemma recv_message_progress s r s' :
  recv_message s = (r, s') ->
  match r with
  | Incomplete _ | Message _ =>
      List.length (inbound s') < List.length (inbound s)
  | Raised e => e <> JSONDecodeError
  | Closed => True
  end.
Proof.
  unfold recv_message.
  destruct (recv s 4) as [[[|b p]|e] s1] eqn:E1.
  - intro H; inversion H; exact I.
  - pose proof (recv_nonempty_lt _ _ E1) as L1.
    pose proof (recv_payload_inbound_le s1 (from_bytes (b :: p)) []) as L2.
    destruct (recv_payload s1 (from_bytes (b :: p)) []) as [[d|e] s2] eqn:E2;
      simpl in L2.
    + destruct (len d =? from_bytes (b :: p))%N; intro H; inversion H;
        subst; lia.
    + intro H; inversion H; subst. exact (recv_payload_raises _ _ _ E2).
  - intro H; inversion H; subst. exact (recv_raises _ _ E1).
Qed.

End Framing.


(** ** Text: [bytes.decode('utf-8')] *)

Module Utf8.
Import Py.

Definition between (lo hi : N) (b : byte) : bool :=
  ((lo <=? Byte.to_N b) && (Byte.to_N b <=? hi))%N.

Definition continuation : byte -> bool := between 128 191.

(** The second byte of a three-byte and of a four-byte sequence: no
    overlong forms, no surrogates, nothing above U+10FFFF. *)
Definition second_of_3 (b0 b1 : byte) : bool :=
  if between 224 224 b0 then between 160 191 b1
  else if between 237 237 b0 then between 128 159 b1
  else continuation b1.

Definition second_of_4 (b0 b1 : byte) : bool :=
  if between 240 240 b0 then between 144 191 b1
  else if between 244 244 b0 then between 128 143 b1
  else continuation b1.

Fixpoint well_formed (b : bytes) : bool :=
  match b with
  | [] => true
  | b0 :: r0 =>
      if between 0 127 b0 then well_formed r0
      else
        match r0 with
        | [] => false
        | b1 :: r1 =>
            if between 194 223 b0 then continuation b1 && well_formed r1
            else
              match r1 with
              | [] => false
              | b2 :: r2 =>
                  if between 224 239 b0
                  then second_of_3 b0 b1 && continuation b2
                       && well_formed r2
                  else
                    match r2 with
                    | [] => false
                    | b3 :: r3 =>
                        between 240 244 b0 && second_of_4 b0 b1
                        && continuation b2 && continuation b3
                        && well_formed r3
                    end
              end
        end
  end.

(** [b.decode('utf-8')]; [None] stands for [UnicodeDecodeError]. *)
Definition decode (b : bytes) : option string :=
  if well_formed b then Some (string_of_list_byte b) else None.

(** [s.encode('utf-8')]. *)
Definition encode (s : string) : bytes := list_byte_of_string s.

End Utf8.

(** ** JSON values, as [json.loads] returns them and [json.dumps] takes them *)

Module Json.

Inductive value :=
| JNull
| JBool (b : bool)
| JInt (z : Z)
| JFloat (f : float)
| JStr (s : string)
| JList (l : list value)
| JDict (d : list (string * value)).

Definition dict := list (string * value).

(** [d.get(k)] as an option. *)
Fixpoint lookup (k : string) (d : dict) : option value :=
  match d with
  | [] => None
  | (k', v) :: d' => if String.eqb k k' then Some v else lookup k d'
  end.

(** [d.update({k: v})]: an existing key keeps its place. *)
Fixpoint update (d : dict) (k : string) (v : value) : dict :=
  match d with
  | [] => [(k, v)]
  | (k', v') :: d' =>
      if String.eqb k k' then (k, v) :: d' else (k', v') :: update d' k v
  end.

(** [v == s] for a string literal [s]. *)
Definition is_str (v : value) (s : string) : bool :=
  match v with
  | JStr t => String.eqb t s
  | _ => false
  end.

(** Truth value of [v] in [if v:]. *)
Definition truthy (v : value) : bool :=
  match v with
  | JNull => false
  | JBool b => b
  | JInt z => negb (z =? 0)%Z
  | JFloat f => negb (PrimFloat.eqb f 0%float)
  | JStr s => negb (String.eqb s "")
  | JList l => match l with [] => false | _ => true end
  | JDict d => match d with [] => false | _ => true end
  end.

End Json.

(** ** Simulated input: the [pynput] calls of the host *)

Module Pynput.
Import Json.

Inductive button := left | right.

Inductive key :=
| Key (name : string)          (* pynput.keyboard.Key[name] *)
| KeyCode (char : value).      (* pynput.keyboard.KeyCode.from_char(char) *)

Inductive injection :=
| set_position (x y : value)   (* mouse.position = (x, y) *)
| mouse_press (b : button)
| mouse_release (b : button)
| mouse_scroll (dx dy : value)
| keyboard_press (k : key)
| keyboard_release (k : key).

End Pynput.

(** ** The application instance *)

Module App.
Import Py Sock Pynput.

(** The calls handed to [master.after(0, ...)]. *)
Inductive ui_call :=
| status (text : string)
| show_image
| stop_client_and_return_to_main.

Record app := mkApp {
  screen_sharing_active : bool;
  input_control_active : bool;
  client_socket : option socket;
  remote_image_tk : option (Z * Z);   (* width and height of the PhotoImage *)
  remote_screen_label : Z * Z;        (* winfo_width(), winfo_height() *)
  stdout : list string;
  ui_queue : list ui_call;
  injected : list injection
}.

Definition set_flags (a : app) (sharing input : bool) : app :=
  mkApp sharing input (client_socket a) (remote_image_tk a)
        (remote_screen_label a) (stdout a) (ui_queue a) (injected a).

Definition print (a : app) (msg : string) : app :=
  mkApp (screen_sharing_active a) (input_control_active a) (client_socket a)
        (remote_image_tk a) (remote_screen_label a) (stdout a ++ [msg])
        (ui_queue a) (injected a).

Definition after (a : app) (c : ui_call) : app :=
  mkApp (screen_sharing_active a) (input_control_active a) (client_socket a)
        (remote_image_tk a) (remote_screen_label a) (stdout a)
        (ui_queue a ++ [c]) (injected a).

Definition inject (a : app) (i : injection) : app :=
  mkApp (screen_sharing_active a) (input_control_active a) (client_socket a)
        (remote_image_tk a) (remote_screen_label a) (stdout a) (ui_queue a)
        (injected a ++ [i]).

Definition set_socket (a : app) (s : option socket) : app :=
  mkApp (screen_sharing_active a) (input_control_active a) s
        (remote_image_tk a) (remote_screen_label a) (stdout a) (ui_queue a)
        (injected a).

Definition set_image (a : app) (size : Z * Z) : app :=
  mkApp (screen_sharing_active a) (input_control_active a) (client_socket a)
        (Some size) (remote_screen_label a) (stdout a) (ui_queue a)
        (injected a).

(** Both activity flags are down. *)
Definition torn_down (a : app) : Prop :=
  screen_sharing_active a = false /\ input_control_active a = false.

(** How a loop body hands control back to its [while]. *)
Inductive control := Continue | Break.

(** Whether a loop has returned or is still going round. *)
Inductive loop_status := Exited | Running.

End App.

(** ** host_logic.py *)

Module Host.
Import Py Sock Framing Json Pynput App.

Section Host.

(** [json.loads]: [Raise JSONDecodeError] for text that is not JSON,
    [Raise OtherError] for what else the library raises. *)
Variable json_loads : string -> result value.

(** Whether [name] is a member of the enumeration
    [pynput.keyboard.Key]. *)
Variable special_key : string -> bool.

(** Whether the operating system carries out a simulated input; when it
    does not, the [pynput] call raises. *)
Variable os_accepts : injection -> bool.

(** A piece of the [try] body: the state it leaves, and whether it
    raised. *)
Definition action := app -> result unit * app.

Definition simulate (i : injection) : action :=
  fun a => if os_accepts i then (Ok tt, inject a i)
           else (Raise OtherError, a).

Definition and_then (f g : action) : action :=
  fun a => match f a with
           | (Ok _, a1) => g a1
           | (Raise e, a1) => (Raise e, a1)
           end.

Definition raise (e : exn) : action := fun a => (Raise e, a).

(** [input_command[k]]: [KeyError] when the key is missing. *)
Definition item (d : dict) (k : string) (f : value -> action) : action :=
  match lookup k d with
  | Some v => f v
  | None => raise OtherError
  end.

(** Lines 180-185: a member of [Key] by name, else a character.  An
    unhashable [key_char] makes the lookup raise [TypeError]. *)
Definition resolve_key (key_char : value) : result key :=
  match key_char with
  | JStr s => if special_key s then Ok (Key s) else Ok (KeyCode key_char)
  | JList _ | JDict _ => Raise OtherError
  | _ => Ok (KeyCode key_char)
  end.

(** Lines 159-193: [input_command.get('type')] and the [if]/[elif]
    chain.  A JSON value that is not an object has no [get]. *)
Definition dispatch (input_command : value) : action :=
  match input_command with
  | JDict d =>
      let command_type :=
        match lookup "type" d with Some v => v | None => JNull end in
      if is_str command_type "mouse_move" then
        item d "x" (fun x => item d "y" (fun y =>
          simulate (set_position x y)))
      else if is_str command_type "mouse_click" then
        item d "x" (fun x => item d "y" (fun y =>
        item d "button" (fun button_name =>
        item d "pressed" (fun pressed =>
          let b := if is_str button_name "left" then left else right in
          and_then (simulate (set_position x y))
                   (if truthy pressed then simulate (mouse_press b)
                    else simulate (mouse_release b))))))
      else if is_str command_type "key_event" then
        item d "key" (fun key_char =>
        item d "pressed" (fun pressed =>
          match resolve_key key_char with
          | Ok k => if truthy pressed then simulate (keyboard_press k)
                    else simulate (keyboard_release k)
          | Raise e => raise e
          end))
      else if is_str command_type "scroll" then
        item d "dx" (fun dx => item d "dy" (fun dy =>
          simulate (mouse_scroll dx dy)))
      else fun a => (Ok tt, a)
  | _ => raise OtherError
  end.

(** Line 158 and what follows it. *)
Definition interpret (input_data_bytes : bytes) : action :=
  match Utf8.decode input_data_bytes with
  | None => raise OtherError
  | Some text =>
      match json_loads text with
      | Ok input_command => dispatch input_command
      | Raise e => raise e
      end
  end.

(** The three handlers of [receive_input_data], lines 195-206. *)
Definition input_handler (e : exn) (a : app) : control * app :=
  match e with
  | ConnectionResetError =>
      (Break,
       set_flags (print a "Client disconnected during input receive.")
                 false false)
  | JSONDecodeError =>
      (Continue, print a "Received malformed JSON input data.")
  | OtherError =>
      (Break,
       set_flags (print a "Error receiving/processing input data")
                 false false)
  end.

(** One pass of the [while] body of [receive_input_data]. *)
Definition receive_input_pass (a : app) (conn : socket)
  : control * app * socket :=
  match recv_message conn with
  | (Closed, c) => (Break, a, c)
  | (Incomplete _, c) =>
      (Continue, print a "Incomplete input data received.", c)
  | (Message input_data_bytes, c) =>
      match interpret input_data_bytes a with
      | (Ok _, a1) => (Continue, a1, c)
      | (Raise e, a1) => (input_handler e a1, c)
      end
  | (Raised e, c) => (input_handler e a, c)
  end.

Lemma receive_input_pass_progress a conn a' conn' :
  receive_input_pass a conn = (Continue, a', conn') ->
  List.length (inbound conn') < List.length (inbound conn).
Proof.
  unfold receive_input_pass.
  destruct (recv_message conn) as [r c] eqn:E.
  pose proof (recv_message_progress _ E) as P.
  destruct r as [|got|payload|e].
  - discriminate.
  - intro H; inversion H; subst; exact P.
  - destruct (interpret payload a) as [[u|e] a1].
    + intro H; inversion H; subst; exact P.
    + destruct (input_handler e a1) eqn:Eh; intro H; inversion H; subst.
      exact P.
  - destruct e; simpl; try discriminate. congruence.
Qed.

(** [receive_input_data]: the loop on [input_control_active] and the
    closing [print]. *)
Equations receive_input_loop (a : app) (conn : socket) : app * socket
  by wf (List.length (inbound conn)) lt :=
  receive_input_loop a conn with input_control_active a => {
    | false := (a, conn);
    | true with inspect (receive_input_pass a conn) => {
      | exist _ (Continue, a', conn') _ := receive_input_loop a' conn';
      | exist _ (Break, a', conn') _ := (a', conn') } }.
Next Obligation. eapply receive_input_pass_progress; eauto. Qed.

Definition receive_input_data (a : app) (conn : socket) : app * socket :=
  let (a', conn') := receive_input_loop a conn in
  (print a' "Input receive thread stopped.", conn').

(** The two handlers of [send_screen_data], lines 113-122. *)
Definition screen_handler (e : exn) (a : app) : app :=
  match e with
  | ConnectionResetError =>
      set_flags (print a "Client disconnected during screen send.")
                false false
  | _ => set_flags (print a "Error sending screen data") false false
  end.

(** One pass of the [while] body of [send_screen_data].  [capture] is
    what lines 97-104 produce for this pass: the JPEG bytes of the
    screen, or [None] when grabbing or encoding raised. *)
Definition send_screen_pass (capture : option bytes) (a : app)
           (conn : socket) : control * app * socket :=
  match capture with
  | None => (Break, screen_handler OtherError a, conn)
  | Some img_bytes =>
      match send_message conn img_bytes with
      | (Ok _, c) => (Continue, a, c)
      | (Raise e, c) => (Break, screen_handler e a, c)
      end
  end.

(** [send_screen_data] over the captures of its successive passes; with
    the captures used up and the flag still set the loop is
    [Running]. *)
Fixpoint send_screen_data (captures : list (option bytes)) (a : app)
         (conn : socket) : loop_status * app * socket :=
  if screen_sharing_active a then
    match captures with
    | [] => (Running, a, conn)
    | capture :: rest =>
        match send_screen_pass capture a conn with
        | (Continue, a', conn') => send_screen_data rest a' conn'
        | (Break, a', conn') => (Exited, a', conn')
        end
    end
  else (Exited, a, conn).

End Host.

End Host.

(** ** The accept loop of [start_host_server], lines 38-76

    The listener thread and the worker threads it starts are a transition
    system: [point] is where the listener thread stands, every session
    ever accepted keeps the state of its two [threading.Thread] objects, and
    an [event] is one move of one thread.  [join] returns only once its
    thread has finished, so it is enabled in that state alone. *)

Module Supervisor.

Inductive thread := unstarted | alive | finished.

Record session := mkSession {
  screen_send_thread : thread;
  input_receive_thread : thread
}.

Inductive point :=
| at_accept          (* line 41, blocked in [accept()] *)
| at_start_screen    (* line 51 *)
| at_start_input     (* line 52 *)
| at_join_screen     (* line 55 *)
| at_join_input      (* line 56 *)
| stopped.           (* left the loop by [break] *)

(** [sessions] holds the newest session first. *)
Record host := mkHost {
  listener : point;
  sessions : list session
}.

Inductive worker := screen_send | input_receive.

Inductive event :=
| accepted                       (* [accept()] returns a connection *)
| accept_timeout                 (* [socket.timeout]: [pass] *)
| accept_failed                  (* [OSError] or another exception: [break] *)
| started                        (* [Thread.start()] returns *)
| start_failed                   (* [Thread.start()] raises: [break] *)
| joined                         (* [Thread.join()] returns *)
| returned (n : nat) (w : worker). (* the target of a worker of session [n] returns *)

Definition initial : host := mkHost at_accept [].

Definition thread_eqb (t u : thread) : bool :=
  match t, u with
  | unstarted, unstarted | alive, alive | finished, finished => true
  | _, _ => false
  end.

Definition is_alive (t : thread) : bool := thread_eqb t alive.

(** A session is active while one of its workers runs. *)
Definition active (s : session) : bool :=
  is_alive (screen_send_thread s) || is_alive (input_receive_thread s).

Definition finish (w : worker) (s : session) : option session :=
  match w with
  | screen_send =>
      if is_alive (screen_send_thread s)
      then Some (mkSession finished (input_receive_thread s)) else None
  | input_receive =>
      if is_alive (input_receive_thread s)
      then Some (mkSession (screen_send_thread s) finished) else None
  end.

Fixpoint finish_nth (n : nat) (w : worker) (l : list session)
  : option (list session) :=
  match l, n with
  | [], _ => None
  | s :: l', O =>
      match finish w s with Some s' => Some (s' :: l') | None => None end
  | s :: l', S n' =>
      match finish_nth n' w l' with Some l'' => Some (s :: l'') | None => None end
  end.

(** One move; [None] when the event is not enabled. *)
Definition step (h : host) (e : event) : option host :=
  match e, listener h, sessions h with
  | accepted, at_accept, l =>
      Some (mkHost at_start_screen (mkSession unstarted unstarted :: l))
  | accept_timeout, at_accept, l => Some (mkHost at_accept l)
  | accept_failed, at_accept, l => Some (mkHost stopped l)
  | started, at_start_screen, s :: l =>
      Some (mkHost at_start_input
                   (mkSession alive (input_receive_thread s) :: l))
  | started, at_start_input, s :: l =>
      Some (mkHost at_join_screen
                   (mkSession (screen_send_thread s) alive :: l))
  | start_failed, at_start_screen, l => Some (mkHost stopped l)
  | start_failed, at_start_input, l => Some (mkHost stopped l)
  | joined, at_join_screen, s :: l =>
      if thread_eqb (screen_send_thread s) finished
      then Some (mkHost at_join_input (s :: l)) else None
  | joined, at_join_input, s :: l =>
      if thread_eqb (input_receive_thread s) finished
      then Some (mkHost at_accept (s :: l)) else None
  | returned n w, p, l =>
      match finish_nth n w l with
      | Some l' => Some (mkHost p l')
      | None => None
      end
  | _, _, _ => None
  end.

Fixpoint run (h : host) (trace : list event) : option host :=
  match trace with
  | [] => Some h
  | e :: trace' =>
      match step h e with
      | Some h' => run h' trace'
      | None => None
      end
  end.

Definition reachable (h : host) : Prop :=
  exists trace, run initial trace = Some h.

(** The number of sessions with a running worker. *)
Definition active_sessions (h : host) : nat :=
  List.length (filter active (sessions h)).

End Supervisor.

(** ** Python floats *)

Module PyFloat.

(** [float(z)], correctly rounded. *)
Definition of_int (z : Z) : float :=
  SF2Prim (binary_normalize prec emax z 0 false).

(** [int(f)]: truncation towards zero; [None] stands for the
    [OverflowError] and [ValueError] of an infinity and of a NaN. *)
Definition to_int (f : float) : option Z :=
  match Prim2SF f with
  | S754_zero _ => Some 0%Z
  | S754_finite s m e =>
      let v := if (0 <=? e)%Z then (Z.pos m * 2 ^ e)%Z
               else (Z.pos m / 2 ^ (- e))%Z in
      Some (if s then (- v)%Z else v)
  | S754_infinity _ => None
  | S754_nan => None
  end.

(** [a / b] on two ints, for operands that a float holds exactly (below
    2^53 in magnitude); [None] stands for [ZeroDivisionError]. *)
Definition truediv (a b : Z) : option float :=
  if (b =? 0)%Z then None else Some (of_int a / of_int b)%float.

(** [x / y] on floats; [None] stands for [ZeroDivisionError]. *)
Definition div (x y : float) : option float :=
  if PrimFloat.eqb y 0%float then None else Some (x / y)%float.

End PyFloat.

(** ** client_logic.py *)

Module Client.
Import Py Sock Framing Json App.
Local Open Scope string_scope.

(** The fields of a [tk.Event] the handlers read.  [event_num] is [None]
    for an event that carries no button number. *)
Record event := mkEvent {
  event_x : Z;
  event_y : Z;
  event_num : option Z;
  event_delta : Z;
  event_keysym : string
}.

(** Lines 92-111 of [receive_screen_data]: the size at which an image of
    size [img_size] is shown on a label whose [winfo_width()] and
    [winfo_height()] are [winfo]; [None] when the computation raises. *)
Definition displayed_size (img_size winfo : Z * Z) : option (Z * Z) :=
  let (label_width, label_height) :=
    if ((fst winfo =? 1) || (snd winfo =? 1))%Z
    then (800, 600)%Z else winfo in
  let (img_width, img_height) := img_size in
  match PyFloat.truediv img_width img_height with
  | None => None
  | Some aspect_ratio =>
      if ((img_width >? label_width) || (img_height >? label_height))%Z
      then
        match PyFloat.div (PyFloat.of_int label_width) aspect_ratio with
        | None => None
        | Some fitted_height =>
            if (fitted_height <=? PyFloat.of_int label_height)%float
            then
              match PyFloat.to_int fitted_height with
              | Some new_height => Some (label_width, new_height)
              | None => None
              end
            else
              match PyFloat.to_int
                      (PyFloat.of_int label_height * aspect_ratio)%float with
              | Some new_width => Some (new_width, label_height)
              | None => None
              end
        end
      else Some (img_width, img_height)
  end.

(** [get_scaled_coords]; [None] when [int()] raises. *)
Definition get_scaled_coords (a : app) (ev : event) : option (Z * Z) :=
  match remote_image_tk a with
  | None => Some (event_x ev, event_y ev)
  | Some (displayed_img_width, displayed_img_height) =>
      if ((displayed_img_width =? 0) || (displayed_img_height =? 0))%Z
      then Some (event_x ev, event_y ev)
      else
        let (label_width, label_height) := remote_screen_label a in
        match PyFloat.truediv (label_width - displayed_img_width) 2,
              PyFloat.truediv (label_height - displayed_img_height) 2 with
        | Some offset_x, Some offset_y =>
            let relative_x := (PyFloat.of_int (event_x ev) - offset_x)%float in
            let relative_y := (PyFloat.of_int (event_y ev) - offset_y)%float in
            match PyFloat.to_int relative_x, PyFloat.to_int relative_y with
            | Some x, Some y => Some (x, y)
            | _, _ => None
            end
        | _, _ => None
        end
  end.

(** The [if]/[elif] chain of [on_key_press], lines 250-268. *)
Definition key_name_press (keysym : string) : string :=
  if String.eqb keysym "Return" then "enter"
  else if String.eqb keysym "Escape" then "esc"
  else if String.eqb keysym "Prior" then "page_up"
  else if String.eqb keysym "Next" then "page_down"
  else if String.eqb keysym "Up" then "up"
  else if String.eqb keysym "Down" then "down"
  else if String.eqb keysym "Left" then "left"
  else if String.eqb keysym "Right" then "right"
  else if String.eqb keysym "Control_L" then "ctrl_l"
  else if String.eqb keysym "Control_R" then "ctrl_r"
  else if String.eqb keysym "Alt_L" then "alt_l"
  else if String.eqb keysym "Alt_R" then "alt_r"
  else if String.eqb keysym "Shift_L" then "shift_l"
  else if String.eqb keysym "Shift_R" then "shift_r"
  else if String.eqb keysym "BackSpace" then "backspace"
  else if String.eqb keysym "Delete" then "delete"
  else if String.eqb keysym "Tab" then "tab"
  else if String.eqb keysym "space" then "space"
  else if String.eqb keysym "Caps_Lock" then "caps_lock"
  else keysym.

(** The [if]/[elif] chain of [on_key_release], lines 279-297. *)
Definition key_name_release (keysym : string) : string :=
  if String.eqb keysym "Return" then "enter"
  else if String.eqb keysym "Escape" then "esc"
  else if String.eqb keysym "Prior" then "page_up"
  else if String.eqb keysym "Next" then "page_down"
  else if String.eqb keysym "Up" then "up"
  else if String.eqb keysym "Down" then "down"
  else if String.eqb keysym "Left" then "left"
  else if String.eqb keysym "Right" then "right"
  else if String.eqb keysym "Control_L" then "ctrl_l"
  else if String.eqb keysym "Control_R" then "ctrl_r"
  else if String.eqb keysym "Alt_L" then "alt_l"
  else if String.eqb keysym "Alt_R" then "alt_r"
  else if String.eqb keysym "Shift_L" then "shift_l"
  else if String.eqb keysym "Shift_R" then "shift_r"
  else if String.eqb keysym "BackSpace" then "backspace"
  else if String.eqb keysym "Delete" then "delete"
  else if String.eqb keysym "Tab" then "tab"
  else if String.eqb keysym "space" then "space"
  else if String.eqb keysym "Caps_Lock" then "caps_lock"
  else keysym.

(** Lines 201-202: [{'type': command_type}] updated with the keyword
    arguments, in the order they were passed. *)
Definition command (command_type : string) (kwargs : dict) : dict :=
  fold_left (fun d kv => update d (fst kv) (snd kv)) kwargs
            [("type", JStr command_type)].

Section Client.

(** [json.dumps]. *)
Variable json_dumps : value -> string.

(** [Image.open(io.BytesIO(img_data)).size], [None] when PIL raises. *)
Variable image_size : bytes -> option (Z * Z).

(** Whether PIL turns the image into a [PhotoImage] of the given size
    without raising. *)
Variable photo_image : bytes -> Z * Z -> bool.

(** The handler of every exception but a reset in
    [receive_screen_data], lines 123-128. *)
Definition screen_error (a : app) : app :=
  set_flags (after (print a "Error receiving/displaying screen data")
                   (status "Screen error"))
            false false.

(** One pass of the [while] body of [receive_screen_data]. *)
Definition receive_screen_pass (a : app) (conn : socket)
  : control * app * socket :=
  match recv_message conn with
  | (Closed, c) => (Break, a, c)
  | (Incomplete _, c) =>
      (Continue, print a "Incomplete image data received.", c)
  | (Message img_data, c) =>
      match image_size img_data with
      | None => (Break, screen_error a, c)
      | Some img_size =>
          match displayed_size img_size (remote_screen_label a) with
          | None => (Break, screen_error a, c)
          | Some shown =>
              if photo_image img_data shown
              then (Continue, after (set_image a shown) show_image, c)
              else (Break, screen_error a, c)
          end
      end
  | (Raised ConnectionResetError, c) =>
      (Break,
       set_flags
         (after (print a "Host disconnected during screen receive.")
                (status "Host disconnected."))
         false false,
       c)
  | (Raised _, c) => (Break, screen_error a, c)
  end.

Lemma receive_screen_pass_progress a conn a' conn' :
  receive_screen_pass a conn = (Continue, a', conn') ->
  List.length (inbound conn') < List.length (inbound conn).
Proof.
  unfold receive_screen_pass.
  destruct (recv_message conn) as [r c] eqn:E.
  pose proof (recv_message_progress _ E) as P.
  destruct r as [|got|payload|e].
  - discriminate.
  - intro H; inversion H; subst; exact P.
  - destruct (image_size payload); [|discriminate].
    destruct (displayed_size _ _); [|discriminate].
    destruct (photo_image _ _); [|discriminate].
    intro H; inversion H; subst; exact P.
  - destruct e; discriminate.
Qed.

Equations receive_screen_loop (a : app) (conn : socket) : app * socket
  by wf (List.length (inbound conn)) lt :=
  receive_screen_loop a conn with screen_sharing_active a => {
    | false := (a, conn);
    | true with inspect (receive_screen_pass a conn) => {
      | exist _ (Continue, a', conn') _ := receive_screen_loop a' conn';
      | exist _ (Break, a', conn') _ := (a', conn') } }.
Next Obligation. eapply receive_screen_pass_progress; eauto. Qed.

(** [receive_screen_data]: the loop, the closing [print] and the
    scheduled return to the main menu. *)
Definition receive_screen_data (a : app) (conn : socket) : app * socket :=
  let (a', conn') := receive_screen_loop a conn in
  (after (print a' "Screen receive thread stopped.")
         stop_client_and_return_to_main,
   conn').

(** [send_input_command]. *)
Definition send_input_command (a : app) (command_type : string)
           (kwargs : dict) : app :=
  if negb (input_control_active a) then a
  else
    match client_socket a with
    | None => a
    | Some sock =>
        let command_json :=
          Utf8.encode (json_dumps (JDict (command command_type kwargs))) in
        match send_message sock command_json with
        | (Ok _, sock') => set_socket a (Some sock')
        | (Raise ConnectionResetError, sock') =>
            after
              (set_flags
                 (after (print (set_socket a (Some sock'))
                               "Host disconnected during input send.")
                        (status "Host disconnected."))
                 false false)
              stop_client_and_return_to_main
        | (Raise _, sock') =>
            print (set_socket a (Some sock')) "Error sending input command"
        end
    end.

(** The event handlers.  A handler whose coordinate computation raises
    sends nothing. *)
Definition on_mouse_move (a : app) (ev : event) : app :=
  match get_scaled_coords a ev with
  | Some (x, y) =>
      send_input_command a "mouse_move" [("x", JInt x); ("y", JInt y)]
  | None => a
  end.

Definition on_mouse_click (a : app) (ev : event) (button : string)
           (pressed : bool) : app :=
  match get_scaled_coords a ev with
  | Some (x, y) =>
      send_input_command a "mouse_click"
        [("x", JInt x); ("y", JInt y); ("button", JStr button);
         ("pressed", JBool pressed)]
  | None => a
  end.

Definition on_mouse_scroll (a : app) (ev : event) : app :=
  let dy :=
    match event_num ev with
    | Some 4%Z => JInt 1
    | Some 5%Z => JInt (-1)
    | _ =>
        if (event_delta ev =? 0)%Z then JInt 0
        else match PyFloat.truediv (event_delta ev) 120 with
             | Some q => JFloat q
             | None => JInt 0
             end
    end in
  send_input_command a "scroll" [("dx", JInt 0); ("dy", dy)].

Definition on_key_press (a : app) (ev : event) : app :=
  send_input_command a "key_event"
    [("key", JStr (key_name_press (event_keysym ev)));
     ("pressed", JBool true)].

Definition on_key_release (a : app) (ev : event) : app :=
  send_input_command a "key_event"
    [("key", JStr (key_name_release (event_keysym ev)));
     ("pressed", JBool false)].

End Client.

End Client.

(** ** A fragment of the [json] module

    [json.loads] and [json.dumps] are library code: the host and the client
    are modelled for every behaviour of them.  To run the model on concrete
    traffic this module gives both functions on the fragment of JSON that
    pointer and key commands are written in: a scalar, or one object of
    scalars, where a scalar is [null], a boolean, an integer, or a string
    without escapes.  Text that is not JSON is answered with
    [Raise JSONDecodeError].  At the first construct outside the fragment
    (a fraction, an exponent, an escape, an array, a nested object, [NaN],
    [Infinity]) the parser stops with [Raise OtherError]; the examples use
    no such text. *)

Module JsonFragment.
Import Py Json.
Local Open Scope string_scope.

Inductive parsed (A : Type) :=
| Got (a : A) (rest : string)
| Bad                          (* not JSON *)
| Outside.                     (* JSON, but not of the fragment *)
Arguments Bad {A}.
Arguments Outside {A}.

Definition code (c : ascii) : N := N_of_ascii c.

Definition is_ws (c : ascii) : bool :=
  ((code c =? 32) || (code c =? 9) || (code c =? 10) || (code c =? 13))%N.

Definition is_digit (c : ascii) : bool :=
  ((48 <=? code c) && (code c <=? 57))%N.

Fixpoint skip_ws (s : string) : string :=
  match s with
  | String c r => if is_ws c then skip_ws r else s
  | EmptyString => s
  end.

(** The characters of a string literal after its opening quote. *)
Fixpoint string_body (s : string) : parsed string :=
  match s with
  | EmptyString => Bad
  | String c r =>
      if (code c =? 34)%N then Got "" r
      else if (code c =? 92)%N then Outside
      else if (code c <? 32)%N then Bad
      else match string_body r with
           | Got t rest => Got (String c t) rest
           | Bad => Bad
           | Outside => Outside
           end
  end.

(** The digits that continue a number whose value so far is [acc]. *)
Fixpoint more_digits (s : string) (acc : Z) : Z * string :=
  match s with
  | String c r =>
      if is_digit c
      then more_digits r (acc * 10 + Z.of_N (code c - 48))
      else (acc, s)
  | EmptyString => (acc, s)
  end.

Definition starts_with_digit (s : string) : bool :=
  match s with
  | String d _ => is_digit d
  | EmptyString => false
  end.

(** Whether the text after an integer literal goes on as a fraction
    ([.] and a digit) or as an exponent ([e] or [E], an optional sign and
    a digit). *)
Definition continues_number (s : string) : bool :=
  match s with
  | String d r =>
      if (code d =? 46)%N then starts_with_digit r
      else if ((code d =? 101) || (code d =? 69))%N then
        match r with
        | String sign r' =>
            if ((code sign =? 43) || (code sign =? 45))%N
            then starts_with_digit r' else is_digit sign
        | EmptyString => false
        end
      else false
  | EmptyString => false
  end.

(** An integer literal without its sign: [0], or a nonzero digit and
    more digits.  A fraction or an exponent after it leaves the
    fragment. *)
Definition natural (s : string) : parsed Z :=
  match s with
  | String c r =>
      if is_digit c then
        let (n, rest) :=
          if (code c =? 48)%N then (0%Z, r)
          else more_digits r (Z.of_N (code c - 48)) in
        if continues_number rest then Outside else Got n rest
      else Bad
  | EmptyString => Bad
  end.

Definition literal (word : string) (v : value) (s : string) : parsed value :=
  if prefix word s
  then Got v (substring (String.length word)
                        (String.length s - String.length word) s)
  else Bad.

Definition scalar (s : string) : parsed value :=
  match s with
  | EmptyString => Bad
  | String c r =>
      if (code c =? 34)%N then
        match string_body r with
        | Got t rest => Got (JStr t) rest
        | Bad => Bad
        | Outside => Outside
        end
      else if (code c =? 45)%N then
        if prefix "Infinity" r then Outside
        else match natural r with
             | Got n rest => Got (JInt (- n)) rest
             | Bad => Bad
             | Outside => Outside
             end
      else if (code c =? 78)%N then
        if prefix "NaN" s then Outside else Bad
      else if (code c =? 73)%N then
        if prefix "Infinity" s then Outside else Bad
      else if (code c =? 110)%N then literal "null" JNull s
      else if (code c =? 116)%N then literal "true" (JBool true) s
      else if (code c =? 102)%N then literal "false" (JBool false) s
      else if ((code c =? 91) || (code c =? 123))%N then Outside
      else match natural s with
           | Got n rest => Got (JInt n) rest
           | Bad => Bad
           | Outside => Outside
           end
  end.

(** The members of an object, from the opening quote of a key on;
    [fuel] bounds the number of members by the length of the text. *)
Fixpoint members (fuel : nat) (s : string) (d : dict) : parsed dict :=
  match fuel, s with
  | S fuel', String c r =>
      if (code c =? 34)%N then
        match string_body r with
        | Got k rest =>
            match skip_ws rest with
            | String colon rest1 =>
                if (code colon =? 58)%N then
                  match scalar (skip_ws rest1) with
                  | Got v rest2 =>
                      match skip_ws rest2 with
                      | String sep rest3 =>
                          if (code sep =? 125)%N
                          then Got (update d k v) rest3
                          else if (code sep =? 44)%N
                          then members fuel' (skip_ws rest3) (update d k v)
                          else Bad
                      | EmptyString => Bad
                      end
                  | Bad => Bad
                  | Outside => Outside
                  end
                else Bad
            | EmptyString => Bad
            end
        | Bad => Bad
        | Outside => Outside
        end
      else Bad
  | _, _ => Bad
  end.

Definition document (s : string) : parsed value :=
  match s with
  | String c r =>
      if (code c =? 123)%N then
        match skip_ws r with
        | String close rest =>
            if (code close =? 125)%N then Got (JDict []) rest
            else match members (String.length s) (skip_ws r) [] with
                 | Got d rest' => Got (JDict d) rest'
                 | Bad => Bad
                 | Outside => Outside
                 end
        | EmptyString => Bad
        end
      else scalar s
  | EmptyString => Bad
  end.

(** [json.loads] on the fragment. *)
Definition loads (s : string) : result value :=
  match document (skip_ws s) with
  | Got v rest =>
      match skip_ws rest with
      | EmptyString => Ok v
      | String _ _ => Raise JSONDecodeError
      end
  | Bad => Raise JSONDecodeError
  | Outside => Raise OtherError
  end.

Definition decimal (z : Z) : string :=
  DecimalString.NilZero.string_of_int (Z.to_int z).

(** A string between double quotes. *)
Definition quoted (s : string) : string :=
  String (ascii_of_N 34) (s ++ String (ascii_of_N 34) "").

Definition dumps_scalar (v : value) : string :=
  match v with
  | JNull => "null"
  | JBool true => "true"
  | JBool false => "false"
  | JInt z => decimal z
  | JFloat f =>
      match PyFloat.to_int f with
      | Some z => decimal z ++ ".0"
      | None => "NaN"
      end
  | JStr s => quoted s
  | JList _ => "[]"
  | JDict _ => "{}"
  end.

Fixpoint dumps_members (d : dict) : string :=
  match d with
  | [] => ""
  | [(k, v)] => quoted k ++ ": " ++ dumps_scalar v
  | (k, v) :: d' =>
      quoted k ++ ": " ++ dumps_scalar v ++ ", " ++ dumps_members d'
  end.

(** [json.dumps] on the fragment. *)
Definition dumps (v : value) : string :=
  match v with
  | JDict d => "{" ++ dumps_members d ++ "}"
  | _ => dumps_scalar v
  end.

End JsonFragment.

(** * Properties *)

Unset Implicit Arguments.
Import Py Sock Framing Json Pynput App.

(** ** Bytes and integers *)

Section Bytes.

Lemma to_N_byte_of_N n : Byte.to_N (byte_of_N n) = (n mod 256)%N.
Proof.
  unfold byte_of_N.
  destruct (Byte.of_N (n mod 256)) as [b|] eqn:E.
  - now apply Byte.to_of_N.
  - apply Byte.of_N_None_iff in E.
    pose proof (N.mod_upper_bound n 256). lia.
Qed.

Lemma to_bytes4_length n h : to_bytes4 n = Some h -> len h = 4%N.
Proof.
  unfold to_bytes4. destruct (n <? 4294967296)%N; [|discriminate].
  intro H; inversion H; reflexivity.
Qed.

Lemma to_bytes4_defined n :
  (n < 4294967296)%N -> exists h, to_bytes4 n = Some h.
Proof.
  intro L. unfold to_bytes4.
  destruct (N.ltb_spec n 4294967296); [eauto|lia].
Qed.

(** [int.from_bytes(n.to_bytes(4, 'big'), 'big') == n]. *)
Lemma from_bytes_to_bytes4 n h : to_bytes4 n = Some h -> from_bytes h = n.
Proof.
  unfold to_bytes4.
  destruct (N.ltb_spec n 4294967296) as [L|]; [|discriminate].
  intro H; inversion H; subst; clear H.
  unfold from_bytes; cbn [fold_left]. rewrite !to_N_byte_of_N.
  replace (n / 65536)%N with (n / 256 / 256)%N
    by (rewrite N.Div0.div_div; reflexivity).
  replace (n / 16777216)%N with (n / 256 / 256 / 256)%N
    by (rewrite !N.Div0.div_div; reflexivity).
  assert (B : (n / 256 / 256 / 256 < 256)%N).
  { repeat (apply N.Div0.div_lt_upper_bound). lia. }
  rewrite (N.mod_small _ _ B).
  pose proof (N.div_mod n 256 ltac:(lia)).
  pose proof (N.div_mod (n / 256) 256 ltac:(lia)).
  pose proof (N.div_mod (n / 256 / 256) 256 ltac:(lia)).
  lia.
Qed.

Lemma firstn_again A (l : list A) k r :
  k <= r ->
  firstn k l ++ firstn (r - List.length (firstn k l)) (skipn k l)
  = firstn r l.
Proof.
  revert k r. induction l as [|x l IH]; intros k r L.
  - now rewrite !firstn_nil, skipn_nil, firstn_nil.
  - destruct k as [|k]; simpl.
    + now rewrite Nat.sub_0_r.
    + destruct r as [|r]; [lia|]. simpl. f_equal. apply IH. lia.
Qed.

Lemma skipn_again A (l : list A) k r :
  k <= r ->
  skipn (r - List.length (firstn k l)) (skipn k l) = skipn r l.
Proof.
  revert k r. induction l as [|x l IH]; intros k r L.
  - now rewrite firstn_nil, !skipn_nil.
  - destruct k as [|k]; simpl.
    + now rewrite Nat.sub_0_r.
    + destruct r as [|r]; [lia|]. simpl. apply IH. lia.
Qed.

End Bytes.

(** ** The reader on a stream that raises nothing *)

(** After [funelim], the equation between the inspected call and its
    value is kept as a plain hypothesis; its packed copy is dropped. *)
Ltac forget_inspect :=
  repeat match goal with
         | H : ?x = _ |- _ =>
             match type of x with sigma _ => clear H end
         end.

Section Reader.

Lemma quiet_tl ev : quiet ev -> quiet (tl ev).
Proof. destruct ev; [trivial|]. intro Q; now inversion Q. Qed.

(** A [recv] hands over a prefix of the pending bytes: all that was asked
    for, or as much as the schedule allows. *)
Lemma recv_quiet s n :
  quiet (arrivals s) -> (1 <= n)%N ->
  exists k, (1 <= k <= n)%N /\
    recv s n = (Ok (take k (inbound s)),
                mkSocket (drop k (inbound s)) (tl (arrivals s))
                         (outbound s) (departures s)).
Proof.
  intros Q L. unfold recv, set_inbound.
  destruct (arrivals s) as [|e ev]; simpl.
  - exists n. split; [lia|reflexivity].
  - inversion Q as [|? ? [cap ->] Q']; subst.
    exists (N.min n (cap + 1)). split; [lia|reflexivity].
Qed.

Lemma recv_whole s n :
  first_whole n (arrivals s) ->
  recv s n = (Ok (take n (inbound s)),
              mkSocket (drop n (inbound s)) (tl (arrivals s))
                       (outbound s) (departures s)).
Proof.
  unfold recv, set_inbound, first_whole.
  destruct (arrivals s) as [|[cap| |] ev]; simpl; intro W;
    try contradiction; [reflexivity|].
  now rewrite N.min_l.
Qed.

Lemma take_nil_inv k (b : bytes) : (1 <= k)%N -> take k b = [] -> b = [].
Proof.
  unfold take. intros L E. destruct b; [reflexivity|].
  destruct (N.to_nat k) eqn:K; [lia|discriminate].
Qed.

(** The accumulation loop gathers exactly the missing bytes of the
    message when that many are pending, whatever the sizes of the reads,
    and everything that is pending otherwise. *)
Lemma recv_payload_quiet s n data :
  quiet (arrivals s) ->
  exists s',
    recv_payload s n data
    = (Ok (data ++ take (n - len data) (inbound s)), s')
    /\ inbound s' = drop (n - len data) (inbound s)
    /\ quiet (arrivals s')
    /\ outbound s' = outbound s /\ departures s' = departures s.
Proof.
  funelim (recv_payload s n data); forget_inspect; intro Q.
  - apply N.ltb_ge in Heq.
    replace (msg_len - len data)%N with 0%N by lia.
    exists s. unfold take, drop; simpl. rewrite app_nil_r. auto.
  - apply N.ltb_lt in Heq.
    destruct (recv_quiet s (N.min (msg_len - len data)
                                  Config.MAX_PACKET_SIZE) Q)
      as (k & Lk & R); [unfold Config.MAX_PACKET_SIZE; lia|].
    rewrite R in e. inversion e as [[E1 E2]].
    apply take_nil_inv in E1; [|lia].
    exists s'. rewrite <- E2; simpl. rewrite E1.
    unfold take, drop. rewrite firstn_nil, !skipn_nil, app_nil_r.
    repeat split; auto using quiet_tl.
  - apply N.ltb_lt in Heq.
    destruct (recv_quiet s (N.min (msg_len - len data)
                                  Config.MAX_PACKET_SIZE) Q)
      as (k & Lk & R); [unfold Config.MAX_PACKET_SIZE; lia|].
    rewrite R in e. inversion e as [[E1 E2]].
    destruct H as (s2 & R2 & I2 & Q2 & O2 & D2).
    { rewrite <- E2; simpl. auto using quiet_tl. }
    rewrite <- E2 in R2, I2, O2, D2. rewrite <- E1 in R2, I2.
    simpl in I2, O2, D2.
    exists s2. rewrite R2, I2, O2, D2.
    unfold take, drop, len. rewrite length_app.
    replace (N.to_nat (msg_len - N.of_nat
               (List.length data
                + List.length (firstn (N.to_nat k) (inbound s)))))
      with (N.to_nat (msg_len - N.of_nat (List.length data))
            - List.length (firstn (N.to_nat k) (inbound s))) by lia.
    rewrite <- app_assoc, firstn_again, skipn_again
      by (unfold len in *; lia).
    repeat split; auto.
  - destruct (recv_quiet s (N.min (msg_len - len data)
                                  Config.MAX_PACKET_SIZE) Q)
      as (k & Lk & R);
      [apply N.ltb_lt in Heq; unfold Config.MAX_PACKET_SIZE; lia|].
    rewrite R in e. discriminate.
Qed.

End Reader.

(** ** Framing *)

Section FramingFacts.

Lemma sendall_writable s data :
  writable s ->
  exists s', sendall s data = (Ok tt, s')
             /\ outbound s' = outbound s ++ data /\ writable s'.
Proof.
  unfold writable, sendall. intro W.
  destruct (departures s) as [|e ev].
  - eexists; repeat split; simpl; auto.
  - inversion W as [|? ? -> W']; subst.
    eexists; repeat split; simpl; auto.
Qed.

Lemma send_message_writable s payload header :
  writable s -> to_bytes4 (len payload) = Some header ->
  exists s', send_message s payload = (Ok tt, s')
             /\ outbound s' = outbound s ++ header ++ payload.
Proof.
  intros W H. unfold send_message. rewrite H.
  destruct (sendall_writable _ header W) as (s1 & -> & O1 & W1).
  destruct (sendall_writable _ payload W1) as (s2 & -> & O2 & W2).
  exists s2. split; [reflexivity|]. now rewrite O2, O1, <- app_assoc.
Qed.

(** The reader on a stream that starts with the frame of [payload], when
    its first read is not cut short of the header. *)
Lemma recv_message_frame s header payload rest :
  to_bytes4 (len payload) = Some header ->
  inbound s = header ++ payload ++ rest ->
  first_whole 4 (arrivals s) -> quiet (arrivals s) ->
  exists s', recv_message s = (Message payload, s') /\ inbound s' = rest
             /\ quiet (arrivals s').
Proof.
  intros H I W Q. unfold recv_message.
  rewrite (recv_whole _ _ W), I.
  pose proof (from_bytes_to_bytes4 _ _ H) as F.
  unfold to_bytes4 in H.
  destruct (len payload <? 4294967296)%N; [|discriminate].
  inversion H as [H']; clear H. rewrite <- H' in F.
  unfold take, drop. change (N.to_nat 4) with 4%nat.
  cbn [firstn skipn List.app].
  rewrite F.
  match goal with
  | |- context [recv_payload ?s1 _ _] =>
      destruct (recv_payload_quiet s1 (len payload) []) as
        (s2 & R2 & I2 & Q2 & _)
  end; [simpl; auto using quiet_tl|].
  rewrite R2. simpl in I2 |- *.
  unfold take, drop, len in *. simpl in I2 |- *.
  rewrite N.sub_0_r, Nat2N.id in *.
  rewrite firstn_app, Nat.sub_diag, firstn_all, firstn_O, app_nil_r.
  rewrite N.eqb_refl.
  exists s2. repeat split; auto.
  rewrite I2, skipn_app, Nat.sub_diag, skipn_all. reflexivity.
Qed.

End FramingFacts.

(** The round trip of C1, for a header that is read whole.  A payload of
    at most 10,000,000 bytes is written as its 4-byte big-endian length
    followed by its bytes, and the reader at the other end of the
    connection, whose first read hands over the whole header and whose
    later reads may each hand over any part of what is pending, gets back
    the payload and leaves the stream empty. *)
Theorem framing_roundtrip (payload : bytes) (tx : socket)
        (ev : list recv_event) :
  (len payload <= 10000000)%N ->
  outbound tx = [] -> writable tx ->
  first_whole 4 ev -> quiet ev ->
  exists tx' rx',
    send_message tx payload = (Ok tt, tx')
    /\ frame payload = Some (outbound tx')
    /\ recv_message (far_end tx' ev) = (Message payload, rx')
    /\ inbound rx' = [].
Proof.
  intros L O W F Q.
  destruct (to_bytes4_defined (len payload)) as (header & H); [lia|].
  destruct (send_message_writable _ payload _ W H) as (tx' & S & O').
  rewrite O in O'; simpl in O'.
  destruct (recv_message_frame (far_end tx' ev) header payload [])
    as (rx' & R & I & _); auto.
  { simpl. now rewrite O', app_nil_r. }
  exists tx', rx'. repeat split; auto.
  unfold frame. now rewrite H, O'.
Qed.

Lemma framing_roundtrip_witness :
  exists tx' rx',
    send_message (mkSocket [] [] [] [SendOk; SendOk]) [x7b; x7d]
    = (Ok tt, tx')
    /\ frame [x7b; x7d] = Some (outbound tx')
    /\ recv_message (far_end tx' [Deliver 3; Deliver 0; Deliver 0])
       = (Message [x7b; x7d], rx')
    /\ inbound rx' = [].
Proof.
  apply framing_roundtrip.
  - vm_compute; discriminate.
  - reflexivity.
  - repeat constructor.
  - simpl; lia.
  - repeat constructor; eexists; reflexivity.
Defined.

(** C1. The round trip is lost when the first read is cut short.  The
    two-byte payload [{}] is sent whole, as the frame [00 00 00 02 7b 7d].
    At the other end the single [recv(4)] of the reader hands over two
    bytes of the header; the reader decodes the length 0 from them and
    returns the empty payload as a complete message, not the payload that
    was sent, and it leaves the rest of the frame in the stream. *)
Theorem roundtrip_lost_on_short_header :
  let payload := [x7b; x7d] in
  let sent := send_message (mkSocket [] [] [] []) payload in
  let got := recv_message (far_end (snd sent) [Deliver 1]) in
  (len payload <= 10000000)%N
  /\ fst sent = Ok tt
  /\ frame payload = Some (outbound (snd sent))
  /\ got = (Message [], mkSocket [x00; x02; x7b; x7d] [] [] [])
  /\ fst got <> Message payload.
Proof.
  vm_compute. repeat split; discriminate.
Qed.

(** C2. The header is read by a single [recv(4)], which may hand over
    fewer than four bytes; the reader then takes what it got for the whole
    header.  Here the frame of the two-byte message [{}] arrives with its
    first read cut after two bytes: the reader decodes the length 0 from
    them, reports an empty message as complete, and leaves the rest of the
    header and the payload in the stream, where the next pass will read
    them as a header. *)
Theorem short_header_read :
  let conn := mkSocket [x00; x00; x00; x02; x7b; x7d] [Deliver 1] [] [] in
  frame [x7b; x7d] = Some (inbound conn)
  /\ recv conn 4
     = (Ok [x00; x00], mkSocket [x00; x02; x7b; x7d] [] [] [])
  /\ recv_message conn
     = (Message [], mkSocket [x00; x02; x7b; x7d] [] [] [])
  /\ fst (recv_message (snd (recv_message conn))) = Incomplete [].
Proof. vm_compute. repeat split. Qed.

(** The part of C2 that holds: once the header is in, the payload is
    gathered over as many reads as it takes, none of them asking for more
    than [MAX_PACKET_SIZE] bytes, and exactly the announced number of
    bytes is taken off the stream. *)
Lemma payload_read_exact s msg_len :
  quiet (arrivals s) -> (msg_len <= len (inbound s))%N ->
  exists s',
    recv_payload s msg_len [] = (Ok (take msg_len (inbound s)), s')
    /\ len (take msg_len (inbound s)) = msg_len
    /\ inbound s' = drop msg_len (inbound s).
Proof.
  intros Q L.
  destruct (recv_payload_quiet s msg_len [] Q) as (s' & R & I & _).
  change (len []) with 0%N in *. rewrite N.sub_0_r in *. simpl in R.
  exists s'. repeat split; auto.
  unfold take, len in *. rewrite length_firstn. lia.
Qed.

Lemma read_request_bounded msg_len (data : bytes) :
  (N.min (msg_len - len data) Config.MAX_PACKET_SIZE <= 65536)%N.
Proof. unfold Config.MAX_PACKET_SIZE. lia. Qed.

(** Whatever the schedule, a payload goes on to be interpreted only when
    its length is the one the header read announced. *)
Lemma message_is_complete conn payload c :
  recv_message conn = (Message payload, c) ->
  exists len_bytes c1,
    recv conn 4 = (Ok len_bytes, c1) /\ len payload = from_bytes len_bytes.
Proof.
  unfold recv_message.
  destruct (recv conn 4) as [[[|b p]|e] c1]; try discriminate.
  destruct (recv_payload c1 (from_bytes (b :: p)) []) as [[d|e] c2];
    try discriminate.
  destruct (N.eqb_spec (len d) (from_bytes (b :: p))); [|discriminate].
  intro H; inversion H; subst. eauto.
Qed.

(** The truncation safety of C3, measured against the header bytes that
    were read.  When the stream ends before as many payload bytes have
    arrived as the bytes returned by the header read decode to, the reader
    reports the message as incomplete; the host loop and the client loop
    print a notice and go on to their next pass with the received bytes
    dropped: nothing is decoded, injected or displayed, and no flag
    changes.  For a header read whole that number is the declared
    length. *)
Theorem truncation_safety
        (json_loads : string -> result value)
        (special_key : string -> bool) (os_accepts : injection -> bool)
        (image_size : bytes -> option (Z * Z))
        (photo_image : bytes -> Z * Z -> bool)
        (a : app) (conn c1 : socket) (len_bytes : bytes) :
  quiet (arrivals conn) ->
  recv conn 4 = (Ok len_bytes, c1) ->
  len_bytes <> [] ->
  (len (inbound c1) < from_bytes len_bytes)%N ->
  exists c2,
    recv_message conn = (Incomplete (inbound c1), c2)
    /\ inbound c2 = []
    /\ Host.receive_input_pass json_loads special_key os_accepts a conn
       = (Continue, print a "Incomplete input data received.", c2)
    /\ Client.receive_screen_pass image_size photo_image a conn
       = (Continue, print a "Incomplete image data received.", c2).
Proof.
  intros Q R NE L.
  assert (Q1 : quiet (arrivals c1)).
  { destruct (recv_quiet conn 4 Q) as (k & _ & R'); [lia|].
    rewrite R' in R. inversion R; subst; simpl. now apply quiet_tl. }
  destruct (recv_payload_quiet c1 (from_bytes len_bytes) [] Q1)
    as (c2 & R2 & I2 & _).
  change (len []) with 0%N in *. rewrite N.sub_0_r in *. simpl in R2.
  assert (T : take (from_bytes len_bytes) (inbound c1) = inbound c1).
  { unfold take, len in *. apply firstn_all2. lia. }
  assert (D : drop (from_bytes len_bytes) (inbound c1) = []).
  { unfold drop, len in *. apply skipn_all2. lia. }
  rewrite T in R2. rewrite D in I2.
  assert (M : recv_message conn = (Incomplete (inbound c1), c2)).
  { unfold recv_message. rewrite R.
    destruct len_bytes as [|b p]; [contradiction|].
    rewrite R2.
    destruct (N.eqb_spec (len (inbound c1)) (from_bytes (b :: p))); [lia|].
    reflexivity. }
  exists c2. repeat split; auto.
  - unfold Host.receive_input_pass. now rewrite M.
  - unfold Client.receive_screen_pass. now rewrite M.
Qed.

Lemma truncation_safety_witness :
  let a := mkApp true true None None (800, 600)%Z [] [] [] in
  let conn := mkSocket [x00; x00; x00; x05; x7b; x7d] [Deliver 3; Deliver 0]
                       [] [] in
  exists c2,
    recv_message conn = (Incomplete [x7b; x7d], c2)
    /\ inbound c2 = []
    /\ Host.receive_input_pass JsonFragment.loads (fun _ => false)
         (fun _ => true) a conn
       = (Continue, print a "Incomplete input data received.", c2)
    /\ Client.receive_screen_pass (fun _ => None) (fun _ _ => true) a conn
       = (Continue, print a "Incomplete image data received.", c2).
Proof.
  intros a conn.
  apply (truncation_safety JsonFragment.loads (fun _ => false)
           (fun _ => true) (fun _ => None) (fun _ _ => true) a conn
           (mkSocket [x7b; x7d] [Deliver 0] [] [])
           [x00; x00; x00; x05]).
  - repeat constructor; eexists; reflexivity.
  - reflexivity.
  - discriminate.
  - vm_compute; reflexivity.
Defined.

(** ** The host loops *)

Section HostFacts.

Variable json_loads : string -> result value.
Variable special_key : string -> bool.
Variable os_accepts : injection -> bool.

Abbreviation pass :=
  (Host.receive_input_pass json_loads special_key os_accepts).
Abbreviation loop :=
  (Host.receive_input_loop json_loads special_key os_accepts).

(** The [while] of [receive_input_data], one turn unrolled. *)
Lemma receive_input_loop_unfold a conn :
  loop a conn
  = if input_control_active a then
      match pass a conn with
      | (Continue, a', conn') => loop a' conn'
      | (Break, a', conn') => (a', conn')
      end
    else (a, conn).
Proof.
  funelim (Host.receive_input_loop json_loads special_key os_accepts a conn);
    forget_inspect; rewrite Heq.
  - reflexivity.
  - rewrite e. reflexivity.
  - rewrite e. reflexivity.
Qed.

Lemma print_flags a msg :
  screen_sharing_active (print a msg) = screen_sharing_active a
  /\ input_control_active (print a msg) = input_control_active a.
Proof. split; reflexivity. Qed.

Lemma screen_handler_torn_down e a : torn_down (Host.screen_handler e a).
Proof. destruct e; split; reflexivity. Qed.

Lemma input_handler_fatal e a :
  e <> JSONDecodeError ->
  fst (Host.input_handler e a) = Break
  /\ torn_down (snd (Host.input_handler e a)).
Proof. destruct e; intro N; try contradiction; repeat split. Qed.

End HostFacts.

(** Concrete traffic for the examples: an application instance in a
    session, and the wire form of a JSON value and of a text. *)
Definition in_session : app :=
  mkApp true true None None (800, 600)%Z [] [] [].

Definition wire_text (text : string) : bytes :=
  match frame (Utf8.encode text) with
  | Some w => w
  | None => []
  end.

Definition wire (v : value) : bytes := wire_text (JsonFragment.dumps v).

(** C3. A truncated message is interpreted when the header read is cut
    short.  The sender announces 9851 bytes with the header [00 00 26 7b],
    sends 37 payload bytes and closes.  The single [recv(4)] hands over
    the three bytes [00 00 26], which decode to 38; the fourth header byte
    and the 37 payload bytes are then taken for a complete message of 38
    bytes, which is the text of a pointer move, and the host sets the
    pointer. *)
Theorem truncated_message_is_injected :
  let text :=
    JsonFragment.dumps
      (JDict (Client.command "mouse_move"
                [("x", JInt 1); ("y", JInt 2)]%string)) in
  let header := [x00; x00; x26; x7b] in
  let tail := drop 1 (Utf8.encode text) in
  let conn := mkSocket (header ++ tail) [Deliver 2] [] [] in
  from_bytes header = 9851%N
  /\ len tail = 37%N
  /\ recv conn 4 = (Ok [x00; x00; x26], mkSocket ([x7b] ++ tail) [] [] [])
  /\ recv_message conn = (Message ([x7b] ++ tail), mkSocket [] [] [] [])
  /\ Host.receive_input_pass JsonFragment.loads (fun _ => false)
       (fun _ => true) in_session conn
     = (Continue, inject in_session (set_position (JInt 1) (JInt 2)),
        mkSocket [] [] [] []).
Proof.
  vm_compute. repeat split.
Qed.

(** C5 as amended.  In the screen-send loop a failed capture and a
    [sendall] that raises, whether a connection reset or any other error,
    end the loop with both activity flags cleared; in the input-receive
    loop a [recv] that raises does the same.  When the peer has closed the
    connection, so that [recv] returns no bytes, the input-receive loop
    ends too, but with the application state, and so both flags, as they
    were. *)
Theorem fatal_errors_tear_down
        (json_loads : string -> result value)
        (special_key : string -> bool) (os_accepts : injection -> bool)
        (a : app) (conn : socket) :
  (forall rest,
      screen_sharing_active a = true ->
      exists a',
        Host.send_screen_data (None :: rest) a conn = (Exited, a', conn)
        /\ torn_down a')
  /\ (forall img e c rest,
         screen_sharing_active a = true ->
         send_message conn img = (Raise e, c) ->
         exists a',
           Host.send_screen_data (Some img :: rest) a conn = (Exited, a', c)
           /\ torn_down a')
  /\ (forall e c,
         input_control_active a = true ->
         recv_message conn = (Raised e, c) ->
         exists a',
           Host.receive_input_pass json_loads special_key os_accepts a conn
           = (Break, a', c)
           /\ Host.receive_input_loop json_loads special_key os_accepts a conn
              = (a', c)
           /\ torn_down a')
  /\ (forall c,
         input_control_active a = true ->
         recv_message conn = (Closed, c) ->
         Host.receive_input_pass json_loads special_key os_accepts a conn
         = (Break, a, c)
         /\ Host.receive_input_loop json_loads special_key os_accepts a conn
            = (a, c)).
Proof.
  split; [|split; [|split]].
  - intros rest S. exists (Host.screen_handler OtherError a). split.
    + simpl. rewrite S. reflexivity.
    + apply screen_handler_torn_down.
  - intros img e c rest S E. exists (Host.screen_handler e a). split.
    + simpl. rewrite S. unfold Host.send_screen_pass. rewrite E. reflexivity.
    + apply screen_handler_torn_down.
  - intros e c I R.
    pose proof (recv_message_progress _ R) as NJ. simpl in NJ.
    destruct (input_handler_fatal e a NJ) as [B T].
    assert (P : Host.receive_input_pass json_loads special_key os_accepts
                  a conn = (Break, snd (Host.input_handler e a), c)).
    { unfold Host.receive_input_pass. rewrite R.
      destruct (Host.input_handler e a); simpl in *; now subst. }
    exists (snd (Host.input_handler e a)). repeat split; try apply T; auto.
    rewrite receive_input_loop_unfold, I, P. reflexivity.
  - intros c I R.
    assert (P : Host.receive_input_pass json_loads special_key os_accepts
                  a conn = (Break, a, c)).
    { unfold Host.receive_input_pass. now rewrite R. }
    split; [exact P|].
    rewrite receive_input_loop_unfold, I, P. reflexivity.
Qed.

Lemma fatal_errors_tear_down_witness :
  (exists a',
      Host.send_screen_data [Some [x7b; x7d]] in_session
        (mkSocket [] [] [] [SendOk; SendError])
      = (Exited, a', mkSocket [] [] [x00; x00; x00; x02] [])
      /\ torn_down a')
  /\ (exists a',
         Host.receive_input_pass JsonFragment.loads (fun _ => false)
           (fun _ => true) in_session
           (mkSocket [x00; x00; x00; x02; x7b] [Deliver 3; RecvReset] [] [])
         = (Break, a', mkSocket [x7b] [] [] [])
         /\ Host.receive_input_loop JsonFragment.loads (fun _ => false)
              (fun _ => true) in_session
              (mkSocket [x00; x00; x00; x02; x7b] [Deliver 3; RecvReset]
                        [] [])
            = (a', mkSocket [x7b] [] [] [])
         /\ torn_down a')
  /\ (Host.receive_input_pass JsonFragment.loads (fun _ => false)
        (fun _ => true) in_session (mkSocket [] [Deliver 3] [] [])
      = (Break, in_session, mkSocket [] [] [] [])
      /\ Host.receive_input_loop JsonFragment.loads (fun _ => false)
           (fun _ => true) in_session (mkSocket [] [Deliver 3] [] [])
         = (in_session, mkSocket [] [] [] [])).
Proof.
  split; [|split].
  - apply (proj1 (proj2 (fatal_errors_tear_down JsonFragment.loads
                           (fun _ => false) (fun _ => true) in_session
                           (mkSocket [] [] [] [SendOk; SendError])))
             [x7b; x7d] OtherError); reflexivity.
  - apply (proj1 (proj2 (proj2 (fatal_errors_tear_down JsonFragment.loads
                                  (fun _ => false) (fun _ => true)
                                  in_session
                                  (mkSocket [x00; x00; x00; x02; x7b]
                                            [Deliver 3; RecvReset] [] []))))
             ConnectionResetError); reflexivity.
  - apply (proj2 (proj2 (proj2 (fatal_errors_tear_down JsonFragment.loads
                                  (fun _ => false) (fun _ => true)
                                  in_session
                                  (mkSocket [] [Deliver 3] [] [])))));
      reflexivity.
Defined.

(** C5 as stated fails for a peer that closes the connection.  With the
    stream at its end [recv] returns no bytes; the input-receive loop
    leaves by the [break] of line 141, where no flag is touched, and
    [receive_input_data] returns with both flags still set. *)
Lemma peer_close_leaves_flags_up :
  let conn := mkSocket [] [] [] [] in
  let ended :=
    Host.receive_input_data JsonFragment.loads (fun _ => false)
      (fun _ => true) in_session conn in
  recv conn 4 = (Ok [], conn)
  /\ Host.receive_input_pass JsonFragment.loads (fun _ => false)
       (fun _ => true) in_session conn
     = (Break, in_session, conn)
  /\ ended = (print in_session "Input receive thread stopped.", conn)
  /\ screen_sharing_active (fst ended) = true
  /\ input_control_active (fst ended) = true.
Proof.
  vm_compute. repeat split.
Qed.

(** ** Commands the host does not understand *)

(** The field names [receive_input_data] reads. *)
Definition known_fields : list string :=
  ["type"; "x"; "y"; "button"; "pressed"; "key"; "dx"; "dy"]%string.


(** The fields [receive_input_data] reads of the object [d]: [type], and
    those of the branch that its [type] selects. *)
Definition fields_read (d : dict) : list string :=
  let t := match lookup "type" d with Some v => v | None => JNull end in
  "type"%string
  :: (if is_str t "mouse_move" then ["x"; "y"]
      else if is_str t "mouse_click" then ["x"; "y"; "button"; "pressed"]
      else if is_str t "key_event" then ["key"; "pressed"]
      else if is_str t "scroll" then ["dx"; "dy"]
      else [])%string.

(** The members of [d] whose names are in [names], in their places. *)
Definition restrict (names : list string) (d : dict) : dict :=
  filter (fun kv => existsb (String.eqb (fst kv)) names) d.

(** An object without the fields the host does not read. *)
Definition read_part (d : dict) : dict := restrict (fields_read d) d.

Section Tolerance.

Variable json_loads : string -> result value.
Variable special_key : string -> bool.
Variable os_accepts : injection -> bool.

Abbreviation dispatch := (Host.dispatch special_key os_accepts).

Lemma lookup_app k d extra :
  lookup k (d ++ extra)
  = match lookup k d with Some v => Some v | None => lookup k extra end.
Proof.
  induction d as [|[k' v] d IH]; simpl; [reflexivity|].
  destruct (String.eqb k k'); auto.
Qed.

Lemma lookup_known k d extra :
  (forall f, In f known_fields -> lookup f extra = None) ->
  In k known_fields -> lookup k (d ++ extra) = lookup k d.
Proof.
  intros U K. rewrite lookup_app, (U k K). now destruct (lookup k d).
Qed.

(** Fields the host does not read change nothing. *)
Lemma dispatch_ignores_unknown_fields d extra a :
  (forall f, In f known_fields -> lookup f extra = None) ->
  dispatch (JDict (d ++ extra)) a = dispatch (JDict d) a.
Proof.
  intro U. unfold Host.dispatch, Host.item.
  rewrite !(lookup_known _ d extra U) by (simpl; tauto).
  reflexivity.
Qed.






End Tolerance.


(** A stream that carries the text [{bad] and then a pointer move. *)
Definition bad_then_move : socket :=
  mkSocket
    (wire_text "{bad"
     ++ wire (JDict (Client.command "mouse_move"
                       [("x", JInt 12); ("y", JInt (-3))]%string)))
    [Deliver 3; Deliver 1] [] [].

(** A pointer move with fields the host does not read before, between
    and after the ones it reads. *)
Definition tagged_move : dict :=
  [("seq", JInt 7); ("type", JStr "mouse_move"); ("x", JInt 12);
   ("note", JStr "a"); ("y", JInt (-3)); ("dx", JNull)]%string.

Definition tagged_move_stream : socket :=
  mkSocket (wire (JDict tagged_move)) [Deliver 3; Deliver 1] [] [].


(** The fields in between change nothing: the pointer is set to the [x]
    and [y] of the object. *)
Example tagged_move_run :
  read_part tagged_move
  = [("type", JStr "mouse_move"); ("x", JInt 12); ("y", JInt (-3))]%string
  /\ Host.receive_input_pass JsonFragment.loads (fun _ => false)
       (fun _ => true) in_session tagged_move_stream
     = (Continue, inject in_session (set_position (JInt 12) (JInt (-3))),
        mkSocket [] [] [] []).
Proof. vm_compute. repeat split. Qed.

(** The whole run on that stream: the notice, then the move, then the end
    of the stream. *)
Example bad_then_move_run :
  let a := fst (Host.receive_input_data JsonFragment.loads (fun _ => false)
                  (fun _ => true) in_session bad_then_move) in
  injected a = [set_position (JInt 12) (JInt (-3))]
  /\ stdout a = ["Received malformed JSON input data.";
                 "Input receive thread stopped."]%string
  /\ input_control_active a = true.
Proof. vm_compute. repeat split. Qed.


(** ** The accept loop *)

Section SupervisorFacts.

Import Supervisor.

(** Both workers of a session have returned. *)
Definition exited (s : session) : bool :=
  thread_eqb (screen_send_thread s) finished
  && thread_eqb (input_receive_thread s) finished.

(** What holds of the sessions at each point of the listener thread: the
    earlier sessions are over, and the newest one is as far as the
    listener has taken it. *)
Definition consistent (h : host) : Prop :=
  match sessions h with
  | [] => listener h = at_accept \/ listener h = stopped
  | s :: l =>
      Forall (fun s' => exited s' = true) l
      /\ match listener h with
         | at_accept => exited s = true
         | at_start_screen => s = mkSession unstarted unstarted
         | at_start_input => input_receive_thread s = unstarted
         | at_join_screen => True
         | at_join_input => screen_send_thread s = finished
         | stopped => True
         end
  end.

Lemma finish_exited w s : exited s = true -> finish w s = None.
Proof.
  destruct s as [[] []], w; cbv; congruence.
Qed.

Lemma finish_nth_exited n w l :
  Forall (fun s => exited s = true) l -> finish_nth n w l = None.
Proof.
  revert n. induction l as [|s l IH]; intros n F; [now destruct n|].
  inversion F; subst. destruct n as [|n]; simpl.
  - now rewrite finish_exited.
  - now rewrite IH.
Qed.

Lemma exited_not_active s : exited s = true -> active s = false.
Proof. destruct s as [[] []]; cbv; congruence. Qed.

Lemma initial_consistent : consistent initial.
Proof. left; reflexivity. Qed.

Lemma step_consistent h e h' :
  consistent h -> step h e = Some h' -> consistent h'.
Proof.
  destruct h as [p l]. unfold consistent, step; simpl.
  destruct e.
  - (* accepted *)
    destruct p; try discriminate. intros C H; inversion H; subst; simpl.
    split; [|reflexivity].
    destruct l as [|s l]; [constructor|]. destruct C; now constructor.
  - destruct p; try discriminate. intros C H; inversion H; subst; exact C.
  - destruct p; try discriminate. intros C H; inversion H; subst; simpl.
    destruct l; [now right|]. destruct C; split; auto.
  - (* started *)
    destruct p; try discriminate; destruct l as [|s l]; try discriminate;
      intros [F C] H; inversion H; subst; simpl; split; auto.
  - destruct p; try discriminate; intros C H; inversion H; subst; simpl;
      (destruct l; [now right|]); destruct C; split; auto.
  - (* joined *)
    destruct p; try discriminate; destruct l as [|s l]; try discriminate;
      intros [F C].
    + destruct (thread_eqb (screen_send_thread s) finished) eqn:E;
        [|discriminate].
      intro H; inversion H; subst; simpl. split; auto.
      now destruct (screen_send_thread s).
    + destruct (thread_eqb (input_receive_thread s) finished) eqn:E;
        [|discriminate].
      intro H; inversion H; subst; simpl. split; auto.
      unfold exited. now rewrite C, E.
  - (* returned *)
    destruct l as [|s l].
    { destruct p, n; discriminate. }
    intros [F C].
    assert (R : forall q, finish_nth n w (s :: l) = Some q ->
                          exists s', q = s' :: l /\ finish w s = Some s').
    { destruct n as [|n]; simpl.
      - destruct (finish w s); [|discriminate].
        intros q H; inversion H; eauto.
      - now rewrite finish_nth_exited. }
    destruct (finish_nth n w (s :: l)) as [q|] eqn:E;
      [|destruct p; discriminate].
    destruct (R q eq_refl) as (s' & -> & Fs).
    assert (H' : Some (mkHost p (s' :: l)) = Some h' -> consistent h').
    { intro H; inversion H; subst; unfold consistent; simpl. split; auto.
      destruct p; auto; [now rewrite finish_exited in Fs| | |];
        unfold finish in Fs.
      - subst s. destruct w; discriminate.
      - destruct w.
        + destruct (is_alive (screen_send_thread s)); [|discriminate].
          inversion Fs; subst; exact C.
        + rewrite C in Fs. discriminate.
      - destruct w.
        + rewrite C in Fs. discriminate.
        + destruct (is_alive (input_receive_thread s)); [|discriminate].
          inversion Fs; subst; exact C. }
    destruct p; exact H'.
Qed.

Lemma run_consistent trace : forall h h',
  consistent h -> run h trace = Some h' -> consistent h'.
Proof.
  induction trace as [|e trace IH]; simpl; intros h h' C H.
  - inversion H; now subst.
  - destruct (step h e) as [h1|] eqn:E; [|discriminate].
    eapply IH; [|exact H]. eapply step_consistent; eauto.
Qed.

Lemma reachable_consistent h : reachable h -> consistent h.
Proof.
  intros [trace R]. eapply run_consistent; [apply initial_consistent|eauto].
Qed.

Lemma no_active_among_exited l :
  Forall (fun s => exited s = true) l -> filter active l = [].
Proof.
  induction 1 as [|s l E F IH]; simpl; [reflexivity|].
  now rewrite (exited_not_active _ E).
Qed.

End SupervisorFacts.

(** C6. Serialized sessions.  In every state the accept loop can reach, at
    most one session has a running worker, and [accept()] returns a
    further connection only in a state where both workers of every session
    accepted so far have returned. *)
Theorem sessions_are_serialized (h : Supervisor.host) :
  Supervisor.reachable h ->
  Supervisor.active_sessions h <= 1
  /\ forall h',
      Supervisor.step h Supervisor.accepted = Some h' ->
      Forall (fun s => exited s = true) (Supervisor.sessions h)
      /\ Supervisor.active_sessions h = 0.
Proof.
  intro R. apply reachable_consistent in R.
  destruct h as [p l]. unfold consistent in R; simpl in R.
  unfold Supervisor.active_sessions; simpl. split.
  - destruct l as [|s l]; simpl; [lia|]. destruct R as [F _].
    rewrite (no_active_among_exited _ F).
    destruct (Supervisor.active s); simpl; lia.
  - intros h' S. unfold Supervisor.step in S; simpl in S.
    destruct p; try discriminate.
    assert (F : Forall (fun s => exited s = true) l).
    { destruct l as [|s l]; [constructor|]. destruct R; now constructor. }
    split; [exact F|]. now rewrite (no_active_among_exited _ F).
Qed.

Lemma sessions_are_serialized_witness :
  let trace :=
    [Supervisor.accepted; Supervisor.started; Supervisor.started;
     Supervisor.returned 0 Supervisor.input_receive;
     Supervisor.returned 0 Supervisor.screen_send;
     Supervisor.joined; Supervisor.joined] in
  let h := Supervisor.mkHost Supervisor.at_accept
             [Supervisor.mkSession Supervisor.finished Supervisor.finished] in
  Supervisor.run Supervisor.initial trace = Some h
  /\ Supervisor.active_sessions h <= 1
  /\ forall h',
      Supervisor.step h Supervisor.accepted = Some h' ->
      Forall (fun s => exited s = true) (Supervisor.sessions h)
      /\ Supervisor.active_sessions h = 0.
Proof.
  intros trace h. split; [reflexivity|].
  apply sessions_are_serialized. exists trace. reflexivity.
Defined.

(** While a worker of the session runs, the listener cannot be handed a
    second connection: the event is not enabled. *)
Example no_accept_during_session :
  let trace :=
    [Supervisor.accepted; Supervisor.started; Supervisor.started;
     Supervisor.returned 0 Supervisor.screen_send; Supervisor.joined] in
  match Supervisor.run Supervisor.initial trace with
  | Some h => Supervisor.step h Supervisor.accepted = None
              /\ Supervisor.step h Supervisor.joined = None
  | None => False
  end.
Proof. vm_compute. split; reflexivity. Qed.

(** ** The client: key names *)

(** The key-name table of the wire format. *)
Definition key_table : list (string * string) :=
  [("Return", "enter"); ("Escape", "esc"); ("Prior", "page_up");
   ("Next", "page_down"); ("Up", "up"); ("Down", "down"); ("Left", "left");
   ("Right", "right"); ("Control_L", "ctrl_l"); ("Control_R", "ctrl_r");
   ("Alt_L", "alt_l"); ("Alt_R", "alt_r"); ("Shift_L", "shift_l");
   ("Shift_R", "shift_r"); ("BackSpace", "backspace"); ("Delete", "delete");
   ("Tab", "tab"); ("space", "space"); ("Caps_Lock", "caps_lock")]%string.

Fixpoint assoc (k : string) (t : list (string * string)) : option string :=
  match t with
  | [] => None
  | (k', v) :: t' => if String.eqb k k' then Some v else assoc k t'
  end.

(** The image of a keysym under the table; a keysym without an entry is
    its own image. *)
Definition normalized (keysym : string) : string :=
  match assoc keysym key_table with
  | Some name => name
  | None => keysym
  end.

(** C9. Key-name normalization.  On a key press and on a key release the
    key name sent is the image of the keysym under the table, and a keysym
    that the table does not list is sent as it is; the two handlers differ
    in the [pressed] field only. *)
Theorem key_name_normalization
        (json_dumps : value -> string) (a : app) (ev : Client.event) :
  let keysym := Client.event_keysym ev in
  Client.key_name_press keysym = normalized keysym
  /\ Client.key_name_release keysym = normalized keysym
  /\ Client.on_key_press json_dumps a ev
     = Client.send_input_command json_dumps a "key_event"
         [("key", JStr (normalized keysym)); ("pressed", JBool true)]%string
  /\ Client.on_key_release json_dumps a ev
     = Client.send_input_command json_dumps a "key_event"
         [("key", JStr (normalized keysym)); ("pressed", JBool false)]%string.
Proof.
  intro keysym.
  assert (P : Client.key_name_press keysym = normalized keysym).
  { unfold Client.key_name_press, normalized, key_table, assoc.
    repeat match goal with
           | |- context [String.eqb keysym ?k] =>
               destruct (String.eqb keysym k); [reflexivity|]
           end.
    reflexivity. }
  assert (R : Client.key_name_release keysym = normalized keysym).
  { unfold Client.key_name_release, normalized, key_table, assoc.
    repeat match goal with
           | |- context [String.eqb keysym ?k] =>
               destruct (String.eqb keysym k); [reflexivity|]
           end.
    reflexivity. }
  repeat split; auto.
  - unfold Client.on_key_press. fold keysym. now rewrite P.
  - unfold Client.on_key_release. fold keysym. now rewrite R.
Qed.

(** A keysym that is no key of the table is its own image. *)
Lemma unlisted_keysym_unchanged keysym :
  assoc keysym key_table = None -> normalized keysym = keysym.
Proof. unfold normalized. now intros ->. Qed.

(** The entries the specification singles out. *)
Example key_name_examples :
  Client.key_name_press "Return" = "enter"%string
  /\ Client.key_name_release "Control_L" = "ctrl_l"%string
  /\ Client.key_name_press "a" = "a"%string
  /\ map (fun kv => Client.key_name_press (fst kv)) key_table
     = map snd key_table
  /\ map (fun kv => Client.key_name_release (fst kv)) key_table
     = map snd key_table.
Proof. vm_compute. repeat split. Qed.

(** ** The client: sending a command *)

Lemma sendall_reading_side s data r s' :
  sendall s data = (r, s') ->
  inbound s' = inbound s /\ arrivals s' = arrivals s.
Proof.
  unfold sendall. destruct (departures s) as [|[| |] ev];
    intro H; inversion H; split; reflexivity.
Qed.

Lemma send_message_reading_side s payload r s' :
  send_message s payload = (r, s') ->
  inbound s' = inbound s /\ arrivals s' = arrivals s.
Proof.
  unfold send_message. destruct (to_bytes4 (len payload)) as [header|].
  - destruct (sendall s header) as [[u|e] s1] eqn:E1;
      apply sendall_reading_side in E1; destruct E1 as [I1 A1].
    + intro E2. apply sendall_reading_side in E2. destruct E2; split; congruence.
    + intro H; inversion H; subst; auto.
  - intro H; inversion H; subst; auto.
Qed.

(** C10. The send-failure asymmetry of the client.  Without an active
    input flag or without a socket, [send_input_command] does nothing.
    When the send raises a connection reset both flags are cleared and the
    return to the main menu is scheduled; when it raises anything else the
    failure is printed and that is all: the flags, the scheduled calls and
    the socket attribute stay, and the reading side of the socket is
    untouched. *)
Theorem send_failure_asymmetry
        (json_dumps : value -> string) (a : app)
        (command_type : string) (kwargs : dict) :
  let a' := Client.send_input_command json_dumps a command_type kwargs in
  let command_json :=
    Utf8.encode (json_dumps (JDict (Client.command command_type kwargs))) in
  (input_control_active a = false \/ client_socket a = None -> a' = a)
  /\ (forall sock sock',
         input_control_active a = true -> client_socket a = Some sock ->
         send_message sock command_json
         = (Raise ConnectionResetError, sock') ->
         torn_down a'
         /\ ui_queue a'
            = ui_queue a ++ [status "Host disconnected.";
                             stop_client_and_return_to_main])
  /\ (forall sock sock' e,
         input_control_active a = true -> client_socket a = Some sock ->
         send_message sock command_json = (Raise e, sock') ->
         e <> ConnectionResetError ->
         a' = print (set_socket a (Some sock')) "Error sending input command"
         /\ screen_sharing_active a' = screen_sharing_active a
         /\ input_control_active a' = true
         /\ ui_queue a' = ui_queue a
         /\ client_socket a' = Some sock'
         /\ inbound sock' = inbound sock /\ arrivals sock' = arrivals sock).
Proof.
  intros a' command_json. subst a'. unfold Client.send_input_command.
  fold command_json. split; [|split].
  - intros [I|S].
    + now rewrite I.
    + rewrite S. now destruct (input_control_active a).
  - intros sock sock' I S E. rewrite I, S, E; simpl.
    split; [split; reflexivity|]. now rewrite <- app_assoc.
  - intros sock sock' e I S E N. rewrite I, S, E; simpl.
    destruct (send_message_reading_side _ _ _ _ E).
    destruct e; try contradiction; repeat split; auto.
Qed.

Lemma send_failure_asymmetry_witness :
  let broken := mkSocket [] [] [] [SendOk; SendError] in
  let a := set_socket in_session (Some broken) in
  let a' := Client.send_input_command JsonFragment.dumps a "mouse_move"
              [("x", JInt 1); ("y", JInt 2)]%string in
  a' = print (set_socket a (Some (mkSocket [] [] [x00; x00; x00; x26] [])))
             "Error sending input command"
  /\ screen_sharing_active a' = screen_sharing_active a
  /\ input_control_active a' = true
  /\ ui_queue a' = ui_queue a
  /\ client_socket a' = Some (mkSocket [] [] [x00; x00; x00; x26] [])
  /\ inbound (mkSocket [] [] [x00; x00; x00; x26] []) = inbound broken
  /\ arrivals (mkSocket [] [] [x00; x00; x00; x26] []) = arrivals broken.
Proof.
  intros broken a a'.
  apply (proj2 (proj2 (send_failure_asymmetry JsonFragment.dumps a
                         "mouse_move" [("x", JInt 1); ("y", JInt 2)]%string))
           broken (mkSocket [] [] [x00; x00; x00; x26] []) OtherError);
    [reflexivity|reflexivity|vm_compute; reflexivity|discriminate].
Defined.

(** A reset on the same command, for comparison. *)
Example send_reset_tears_down :
  let a := set_socket in_session (Some (mkSocket [] [] [] [SendReset])) in
  let a' := Client.send_input_command JsonFragment.dumps a "mouse_move"
              [("x", JInt 1); ("y", JInt 2)]%string in
  torn_down a'
  /\ ui_queue a' = [status "Host disconnected.";
                    stop_client_and_return_to_main]
  /\ stdout a' = ["Host disconnected during input send."%string].
Proof. vm_compute. repeat split. Qed.

(** ** The client: fitting the image and mapping the pointer *)

(** The size of the render surface as the renderer takes it: 800 by 600
    when the label reports a dimension of 1. *)
Definition surface (winfo : Z * Z) : Z * Z :=
  if ((fst winfo =? 1) || (snd winfo =? 1))%Z then (800, 600)%Z else winfo.

(** C7. Aspect-fit scaling.  With [aspect = w / h] and the surface taken
    as 800 by 600 when the label reports a dimension of 1: an image that
    exceeds the surface in a dimension is shown at
    [(sw, int(sw / aspect))] when [sw / aspect <= sh] and at
    [(int(sh * aspect), sh)] otherwise, and an image that fits is shown at
    its own size.  The arithmetic is Python's: [/] and [*] on floats,
    [int] truncating, and no size when [int] raises. *)
Theorem aspect_fit_scaling (w h : Z) (winfo : Z * Z) (sw sh : Z)
        (aspect : float) :
  surface winfo = (sw, sh) ->
  PyFloat.truediv w h = Some aspect ->
  (forall fitted,
      (w > sw \/ h > sh)%Z ->
      PyFloat.div (PyFloat.of_int sw) aspect = Some fitted ->
      (PrimFloat.leb fitted (PyFloat.of_int sh) = true ->
       Client.displayed_size (w, h) winfo
       = option_map (fun n => (sw, n)) (PyFloat.to_int fitted))
      /\ (PrimFloat.leb fitted (PyFloat.of_int sh) = false ->
          Client.displayed_size (w, h) winfo
          = option_map (fun n => (n, sh))
              (PyFloat.to_int (PyFloat.of_int sh * aspect)%float)))
  /\ ((w <= sw)%Z -> (h <= sh)%Z ->
      Client.displayed_size (w, h) winfo = Some (w, h)).
Proof.
  intros S A. unfold Client.displayed_size. fold (surface winfo).
  rewrite S, A. split.
  - intros fitted E D.
    assert (G : ((w >? sw) || (h >? sh))%Z = true).
    { apply orb_true_iff. destruct E; [left|right]; now apply Z.gtb_gt. }
    rewrite G, D. split; intros ->.
    + now destruct (PyFloat.to_int fitted).
    + now destruct (PyFloat.to_int _).
  - intros Lw Lh.
    assert (G : ((w >? sw) || (h >? sh))%Z = false).
    { apply orb_false_iff. split; rewrite Z.gtb_ltb; apply Z.ltb_ge; lia. }
    now rewrite G.
Qed.

Lemma aspect_fit_scaling_witness :
  Client.displayed_size (1920, 1080)%Z (1, 1)%Z = Some (800, 450)%Z
  /\ Client.displayed_size (1080, 1920)%Z (1366, 700)%Z = Some (393, 700)%Z
  /\ Client.displayed_size (640, 480)%Z (1366, 700)%Z = Some (640, 480)%Z.
Proof.
  split; [|split].
  - apply (proj1 (proj1 (aspect_fit_scaling 1920 1080 (1, 1)%Z 800 600
                           (PyFloat.of_int 1920 / PyFloat.of_int 1080)%float
                           eq_refl eq_refl)
                    (PyFloat.of_int 800
                     / (PyFloat.of_int 1920 / PyFloat.of_int 1080))%float
                    (or_introl eq_refl) eq_refl)).
    reflexivity.
  - apply (proj2 (proj1 (aspect_fit_scaling 1080 1920 (1366, 700)%Z 1366 700
                           (PyFloat.of_int 1080 / PyFloat.of_int 1920)%float
                           eq_refl eq_refl)
                    (PyFloat.of_int 1366
                     / (PyFloat.of_int 1080 / PyFloat.of_int 1920))%float
                    (or_intror eq_refl) eq_refl)).
    reflexivity.
  - apply (proj2 (aspect_fit_scaling 640 480 (1366, 700)%Z 1366 700
                    (PyFloat.of_int 640 / PyFloat.of_int 480)%float
                    eq_refl eq_refl)); discriminate.
Defined.

(** The coordinates the specification gives for an event at [(ex, ey)] on
    a surface of [sw] by [sh] showing an image of [iw] by [ih]:
    [(int(ex - (sw - iw) / 2), int(ey - (sh - ih) / 2))]. *)
Definition centred (ex ey sw sh iw ih : Z) : option (Z * Z) :=
  match PyFloat.truediv (sw - iw) 2, PyFloat.truediv (sh - ih) 2 with
  | Some offset_x, Some offset_y =>
      match PyFloat.to_int (PyFloat.of_int ex - offset_x)%float,
            PyFloat.to_int (PyFloat.of_int ey - offset_y)%float with
      | Some x, Some y => Some (x, y)
      | _, _ => None
      end
  | _, _ => None
  end.

(** An application instance showing an image of the given size on a label
    of the given size. *)
Definition showing (image : option (Z * Z)) (label : Z * Z) : app :=
  mkApp true true None image label [] [] [].

Definition pointer_at (x y : Z) : Client.event :=
  Client.mkEvent x y None 0 "".

(** C8 as amended.  Before any image has been rendered, and also while
    the rendered image has a width or a height of zero, the event
    coordinates pass through; otherwise they are moved by the centring
    offsets and truncated.  On a surface of 800 by 600 showing an image of
    400 by 300, (200, 150) maps to (0, 0) and (400, 300) to (200, 150). *)
Theorem coordinate_mapping (a : app) (ev : Client.event) :
  let ex := Client.event_x ev in
  let ey := Client.event_y ev in
  let sw := fst (remote_screen_label a) in
  let sh := snd (remote_screen_label a) in
  (remote_image_tk a = None ->
   Client.get_scaled_coords a ev = Some (ex, ey))
  /\ (forall iw ih,
         remote_image_tk a = Some (iw, ih) -> iw <> 0%Z -> ih <> 0%Z ->
         Client.get_scaled_coords a ev = centred ex ey sw sh iw ih)
  /\ (forall iw ih,
         remote_image_tk a = Some (iw, ih) -> iw = 0%Z \/ ih = 0%Z ->
         Client.get_scaled_coords a ev = Some (ex, ey))
  /\ Client.get_scaled_coords (showing (Some (400, 300)%Z) (800, 600)%Z)
       (pointer_at 200 150) = Some (0, 0)%Z
  /\ Client.get_scaled_coords (showing (Some (400, 300)%Z) (800, 600)%Z)
       (pointer_at 400 300) = Some (200, 150)%Z.
Proof.
  intros ex ey sw sh. unfold Client.get_scaled_coords.
  repeat split.
  - now intros ->.
  - intros iw ih -> Nw Nh.
    destruct (Z.eqb_spec iw 0); [contradiction|].
    destruct (Z.eqb_spec ih 0); [contradiction|]. simpl.
    subst sw sh. destruct (remote_screen_label a) as [lw lh]. reflexivity.
  - intros iw ih -> [-> | ->]; [reflexivity|].
    now rewrite Z.eqb_refl, orb_true_r.
Qed.

Lemma coordinate_mapping_witness :
  Client.get_scaled_coords (showing (Some (401, 300)%Z) (800, 600)%Z)
    (pointer_at 100 300)
  = Some (-99, 150)%Z
  /\ Client.get_scaled_coords (showing None (800, 600)%Z) (pointer_at 7 9)
     = Some (7, 9)%Z
  /\ Client.get_scaled_coords (showing (Some (400, 0)%Z) (800, 600)%Z)
       (pointer_at 7 9)
     = Some (7, 9)%Z.
Proof.
  split; [|split].
  - apply (proj1 (proj2 (coordinate_mapping
                           (showing (Some (401, 300)%Z) (800, 600)%Z)
                           (pointer_at 100 300))) 401 300 eq_refl)%Z;
      discriminate.
  - apply (proj1 (coordinate_mapping (showing None (800, 600)%Z)
                    (pointer_at 7 9)) eq_refl).
  - apply (proj1 (proj2 (proj2 (coordinate_mapping
                                  (showing (Some (400, 0)%Z) (800, 600)%Z)
                                  (pointer_at 7 9)))) 400 0 eq_refl)%Z.
    now right.
Defined.

(** C8 as stated fails on a rendered image with a zero dimension: the
    guard of [get_scaled_coords] passes the event coordinates through,
    where the formula of the specification moves them by the offsets. *)
Lemma zero_size_image_passes_through :
  Client.get_scaled_coords (showing (Some (0, 300)%Z) (800, 600)%Z)
    (pointer_at 200 150)
  = Some (200, 150)%Z
  /\ centred 200 150 800 600 0 300 = Some (-200, 0)%Z
  /\ Client.get_scaled_coords (showing (Some (0, 300)%Z) (800, 600)%Z)
       (pointer_at 200 150)
     <> centred 200 150 800 600 0 300.
Proof. vm_compute. repeat split. discriminate. Qed.

(** * The rest of the protocol *)

(** ** main.py: leaving a client session *)

Module Main.

(** [stop_client_and_return_to_main].  [os_error] tells whether
    [shutdown] or [close] raises [OSError], which the function prints.
    [input_listener] is [None] throughout the program, and
    [show_main_menu] rebuilds widgets the model does not hold. *)
Definition stop_client_and_return_to_main (os_error : bool) (a : app) : app :=
  let a1 := set_flags a false false in
  match client_socket a1 with
  | Some _ =>
      set_socket
        (if os_error then print a1 "Error shutting down client socket"
         else a1)
        None
  | None => a1
  end.

(** One call that [master.after(0, ...)] queued, run by the main loop.
    Only the return to the main menu touches the state the model holds. *)
Definition run_call (os_error : bool) (a : app) (c : ui_call) : app :=
  match c with
  | App.stop_client_and_return_to_main =>
      stop_client_and_return_to_main os_error a
  | status _ => a
  | show_image => a
  end.

(** The main loop takes the queued calls in the order they were queued. *)
Definition mainloop (os_error : bool) (a : app) : app :=
  fold_left (run_call os_error) (ui_queue a)
            (mkApp (screen_sharing_active a) (input_control_active a)
                   (client_socket a) (remote_image_tk a)
                   (remote_screen_label a) (stdout a) [] (injected a)).

End Main.

(** ** Schedules and streams of several messages *)


(** The bytes on the wire for the messages [ps], one frame after the
    other. *)
Fixpoint stream_of (ps : list bytes) : bytes :=
  match ps with
  | [] => []
  | p :: ps' =>
      match frame p with Some w => w | None => [] end ++ stream_of ps'
  end.

(** Every message fits the four-byte length. *)
Definition framable (ps : list bytes) : Prop :=
  Forall (fun p => (len p < 4294967296)%N) ps.

Section Schedules.




Variable P : list recv_event -> Prop.
Hypothesis P_tl : forall ev, P ev -> P (tl ev).



End Schedules.


Lemma recv_message_at_end s :
  quiet (arrivals s) -> inbound s = [] ->
  exists s', recv_message s = (Closed, s') /\ inbound s' = [].
Proof.
  intros Q I. unfold recv_message.
  destruct (recv_quiet s 4 Q) as (k & _ & R); [lia|].
  rewrite R, I. unfold take, drop. rewrite firstn_nil, skipn_nil.
  eexists; split; reflexivity.
Qed.

(** ** The input loop over a whole stream *)

Section InputStream.

Variable json_loads : string -> result value.
Variable special_key : string -> bool.
Variable os_accepts : injection -> bool.





End InputStream.




(** ** What the reader hands on, under any schedule *)

Lemma recv_at_most s n d s' : recv s n = (Ok d, s') -> (len d <= n)%N.
Proof.
  unfold recv, take, len.
  destruct (arrivals s) as [|[cap| |] ev]; intro H; inversion H; subst;
    rewrite length_firstn; lia.
Qed.

Lemma recv_payload_at_most s n data d s' :
  (len data <= n)%N -> recv_payload s n data = (Ok d, s') -> (len d <= n)%N.
Proof.
  funelim (recv_payload s n data); forget_inspect; intros L R.
  - inversion R; now subst.
  - inversion R; now subst.
  - apply N.ltb_lt in Heq. apply recv_at_most in e.
    apply (H d s'0); [|exact R].
    unfold len in *. rewrite length_app. lia.
  - discriminate.
Qed.

(** X2. Declared and delivered length.  Whatever the reads return and
    whenever they raise, a payload goes on to be interpreted only if its
    length is the number the header bytes decode to, and a payload that is
    set aside as incomplete is strictly shorter than that number. *)
Theorem declared_length_is_delivered (conn c : socket) (r : received) :
  recv_message conn = (r, c) ->
  match r with
  | Message payload =>
      exists len_bytes c1,
        recv conn 4 = (Ok len_bytes, c1) /\ len_bytes <> []
        /\ len payload = from_bytes len_bytes
  | Incomplete got =>
      exists len_bytes c1,
        recv conn 4 = (Ok len_bytes, c1) /\ len_bytes <> []
        /\ (len got < from_bytes len_bytes)%N
  | Closed => recv conn 4 = (Ok [], c)
  | Raised e => e <> JSONDecodeError
  end.
Proof.
  unfold recv_message.
  destruct (recv conn 4) as [[[|b p]|e] c1] eqn:R4.
  - intro H; inversion H; subst; reflexivity.
  - destruct (recv_payload c1 (from_bytes (b :: p)) []) as [[d|e] c2] eqn:RP.
    + assert (L : (len d <= from_bytes (b :: p))%N).
      { apply (recv_payload_at_most c1 _ [] d c2); [apply N.le_0_l|exact RP]. }
      destruct (N.eqb_spec (len d) (from_bytes (b :: p))) as [E|NE];
        intro H; inversion H; subst; exists (b :: p), c1;
        repeat split; auto; try discriminate. lia.
    + intro H; inversion H; subst. exact (recv_payload_raises _ _ _ RP).
  - intro H; inversion H; subst. exact (recv_raises _ _ R4).
Qed.

Lemma declared_length_is_delivered_witness :
  exists len_bytes c1,
    recv (mkSocket [x00; x00; x00; x02; x7b; x7d; x00]
                   [Deliver 3; Deliver 0; Deliver 0; RecvReset] [] []) 4
    = (Ok len_bytes, c1)
    /\ len_bytes <> []
    /\ len [x7b; x7d] = from_bytes len_bytes.
Proof.
  apply (declared_length_is_delivered
           (mkSocket [x00; x00; x00; x02; x7b; x7d; x00]
                     [Deliver 3; Deliver 0; Deliver 0; RecvReset] [] [])
           (mkSocket [x00] [RecvReset] [] []) (Message [x7b; x7d])).
  reflexivity.
Defined.

(** ** Flags are cleared, never set *)

(** No flag that is down in [a] is up in [a']. *)
Definition only_cleared (a a' : app) : Prop :=
  (screen_sharing_active a' = true -> screen_sharing_active a = true)
  /\ (input_control_active a' = true -> input_control_active a = true).

(** [a'] has the flags of [a]. *)
Definition same_flags (a a' : app) : Prop :=
  screen_sharing_active a' = screen_sharing_active a
  /\ input_control_active a' = input_control_active a.

Section Flags.

Lemma only_cleared_refl a : only_cleared a a.
Proof. split; auto. Qed.

Lemma only_cleared_trans a b c :
  only_cleared a b -> only_cleared b c -> only_cleared a c.
Proof. intros [? ?] [? ?]; split; auto. Qed.

Lemma same_flags_only_cleared a a' : same_flags a a' -> only_cleared a a'.
Proof. intros [S I]; split; congruence. Qed.

Lemma set_flags_down a a' : only_cleared a a' -> only_cleared a (set_flags a' false false).
Proof. intros _; split; discriminate. Qed.

Variable json_loads : string -> result value.
Variable special_key : string -> bool.
Variable os_accepts : injection -> bool.

(** A piece of the [try] body that leaves the flags alone. *)
Definition keeps_flags (f : Host.action) : Prop :=
  forall a r a', f a = (r, a') -> same_flags a a'.

Lemma keeps_simulate i : keeps_flags (Host.simulate os_accepts i).
Proof.
  intros a r a'. unfold Host.simulate.
  destruct (os_accepts i); intro H; inversion H; split; reflexivity.
Qed.

Lemma keeps_raise e : keeps_flags (Host.raise e).
Proof. intros a r a' H; inversion H; split; reflexivity. Qed.

Lemma keeps_skip : keeps_flags (fun a => (Ok tt, a)).
Proof. intros a r a' H; inversion H; split; reflexivity. Qed.

Lemma keeps_and_then f g :
  keeps_flags f -> keeps_flags g -> keeps_flags (Host.and_then f g).
Proof.
  intros F G a r a'. unfold Host.and_then.
  destruct (f a) as [[u|e] a1] eqn:E.
  - intro H. destruct (F _ _ _ E), (G _ _ _ H). split; congruence.
  - intro H; inversion H; subst. exact (F _ _ _ E).
Qed.

Lemma keeps_item d k f :
  (forall v, keeps_flags (f v)) -> keeps_flags (Host.item d k f).
Proof.
  intro F. unfold Host.item. destruct (lookup k d); [apply F|apply keeps_raise].
Qed.

Lemma keeps_dispatch v : keeps_flags (Host.dispatch special_key os_accepts v).
Proof.
  unfold Host.dispatch. destruct v; try apply keeps_raise.
  repeat match goal with
         | |- keeps_flags (if ?c then _ else _) => destruct c
         | |- keeps_flags (Host.item _ _ _) => apply keeps_item; intro
         | |- keeps_flags (Host.and_then _ _) => apply keeps_and_then
         | |- keeps_flags (Host.simulate _ _) => apply keeps_simulate
         | |- keeps_flags (Host.raise _) => apply keeps_raise
         | |- keeps_flags (match ?r with Ok _ => _ | Raise _ => _ end) =>
             destruct r
         | |- keeps_flags (fun a => (Ok tt, a)) => apply keeps_skip
         end.
Qed.

Lemma keeps_interpret p :
  keeps_flags (Host.interpret json_loads special_key os_accepts p).
Proof.
  unfold Host.interpret. destruct (Utf8.decode p); [|apply keeps_raise].
  destruct (json_loads s); [apply keeps_dispatch|apply keeps_raise].
Qed.

Lemma input_handler_only_clears e a :
  only_cleared a (snd (Host.input_handler e a)).
Proof. destruct e; simpl; split; auto; discriminate. Qed.

Lemma input_pass_only_clears a conn :
  only_cleared a
    (snd (fst (Host.receive_input_pass json_loads special_key os_accepts
                 a conn))).
Proof.
  unfold Host.receive_input_pass.
  destruct (recv_message conn) as [[|got|p|e] c]; simpl.
  - apply only_cleared_refl.
  - split; auto.
  - destruct (Host.interpret _ _ _ p a) as [[u|e] a1] eqn:E;
      apply keeps_interpret in E; apply same_flags_only_cleared in E.
    + exact E.
    + eapply only_cleared_trans; [exact E|].
      pose proof (input_handler_only_clears e a1).
      now destruct (Host.input_handler e a1).
  - pose proof (input_handler_only_clears e a).
    now destruct (Host.input_handler e a).
Qed.

Lemma input_loop_only_clears a conn :
  only_cleared a
    (fst (Host.receive_input_loop json_loads special_key os_accepts a conn)).
Proof.
  funelim (Host.receive_input_loop json_loads special_key os_accepts a conn);
    forget_inspect.
  - apply only_cleared_refl.
  - pose proof (input_pass_only_clears a conn) as P. rewrite e in P.
    eapply only_cleared_trans; [exact P|exact H].
  - pose proof (input_pass_only_clears a conn) as P. now rewrite e in P.
Qed.

Lemma screen_pass_only_clears capture a conn :
  only_cleared a (snd (fst (Host.send_screen_pass capture a conn))).
Proof.
  unfold Host.send_screen_pass. destruct capture as [img|].
  - destruct (send_message conn img) as [[u|e] c]; simpl.
    + apply only_cleared_refl.
    + destruct e; split; discriminate.
  - split; discriminate.
Qed.

Lemma screen_loop_only_clears captures : forall a conn,
  only_cleared a (snd (fst (Host.send_screen_data captures a conn))).
Proof.
  induction captures as [|capture rest IH]; intros a conn; simpl;
    destruct (screen_sharing_active a) eqn:S; try apply only_cleared_refl.
  pose proof (screen_pass_only_clears capture a conn) as P.
  destruct (Host.send_screen_pass capture a conn) as [[[|] a'] c]; simpl in *.
  - eapply only_cleared_trans; [exact P|apply IH].
  - exact P.
Qed.

End Flags.

(** X3. The host loops clear flags and never set one.  Whatever arrives
    and whatever fails, a flag that is down when [receive_input_data] or
    [send_screen_data] starts is down when it returns. *)
Theorem host_loops_only_clear_flags
        (json_loads : string -> result value)
        (special_key : string -> bool) (os_accepts : injection -> bool)
        (captures : list (option bytes)) (a : app) (conn : socket) :
  only_cleared a
    (fst (Host.receive_input_data json_loads special_key os_accepts a conn))
  /\ only_cleared a (snd (fst (Host.send_screen_data captures a conn))).
Proof.
  split.
  - unfold Host.receive_input_data.
    pose proof (input_loop_only_clears json_loads special_key os_accepts
                  a conn) as L.
    destruct (Host.receive_input_loop _ _ _ a conn) as [a' c]. exact L.
  - apply screen_loop_only_clears.
Qed.

Section ClientFlags.

Variable json_dumps : value -> string.
Variable image_size : bytes -> option (Z * Z).
Variable photo_image : bytes -> Z * Z -> bool.

Lemma screen_receive_pass_only_clears a conn :
  only_cleared a
    (snd (fst (Client.receive_screen_pass image_size photo_image a conn))).
Proof.
  unfold Client.receive_screen_pass.
  destruct (recv_message conn) as [[|got|p|e] c]; simpl.
  - apply only_cleared_refl.
  - split; auto.
  - destruct (image_size p); [|split; discriminate].
    destruct (Client.displayed_size _ _); [|split; discriminate].
    destruct (photo_image _ _); [split; auto|split; discriminate].
  - destruct e; split; discriminate.
Qed.

Lemma screen_receive_loop_only_clears a conn :
  only_cleared a
    (fst (Client.receive_screen_loop image_size photo_image a conn)).
Proof.
  funelim (Client.receive_screen_loop image_size photo_image a conn);
    forget_inspect.
  - apply only_cleared_refl.
  - pose proof (screen_receive_pass_only_clears a conn) as P.
    rewrite e in P. eapply only_cleared_trans; [exact P|exact H].
  - pose proof (screen_receive_pass_only_clears a conn) as P.
    now rewrite e in P.
Qed.

Lemma send_input_command_only_clears a command_type kwargs :
  only_cleared a (Client.send_input_command json_dumps a command_type kwargs).
Proof.
  unfold Client.send_input_command.
  destruct (input_control_active a) eqn:I; simpl;
    [|apply only_cleared_refl].
  destruct (client_socket a); [|apply only_cleared_refl].
  destruct (send_message _ _) as [[u|[| |]] s']; split; simpl; auto;
    discriminate.
Qed.

Lemma stop_client_stops os_error a :
  torn_down (Main.stop_client_and_return_to_main os_error a)
  /\ client_socket (Main.stop_client_and_return_to_main os_error a) = None.
Proof.
  unfold Main.stop_client_and_return_to_main, torn_down; simpl.
  destruct (client_socket a) eqn:S; simpl; [|now rewrite S].
  now destruct os_error.
Qed.

Lemma stop_client_queue os_error a :
  ui_queue (Main.stop_client_and_return_to_main os_error a) = ui_queue a.
Proof.
  unfold Main.stop_client_and_return_to_main; simpl.
  destruct (client_socket a); simpl; auto. now destruct os_error.
Qed.

Lemma run_calls_queue os_error q : forall a,
  ui_queue a = [] -> ui_queue (fold_left (Main.run_call os_error) q a) = [].
Proof.
  induction q as [|c q IH]; intros a Q; simpl; auto.
  apply IH. destruct c; simpl; auto. now rewrite stop_client_queue.
Qed.

Lemma run_call_only_clears os_error a c :
  only_cleared a (Main.run_call os_error a c).
Proof.
  destruct c; simpl; try apply only_cleared_refl.
  destruct (stop_client_stops os_error a) as [[S I] _].
  split; congruence.
Qed.

Lemma run_calls_only_clear os_error q : forall a,
  only_cleared a (fold_left (Main.run_call os_error) q a).
Proof.
  induction q as [|c q IH]; intro a; simpl; [apply only_cleared_refl|].
  eapply only_cleared_trans; [apply run_call_only_clears|apply IH].
Qed.

End ClientFlags.

(** X4. The client clears flags and never sets one.  The screen loop,
    every input handler, and the return to the main menu with the main
    loop that runs it leave down every flag that was down. *)
Theorem client_only_clears_flags
        (json_dumps : value -> string)
        (image_size : bytes -> option (Z * Z))
        (photo_image : bytes -> Z * Z -> bool)
        (a : app) (conn : socket) (ev : Client.event)
        (button : string) (pressed os_error : bool) :
  only_cleared a
    (fst (Client.receive_screen_data image_size photo_image a conn))
  /\ only_cleared a (Client.on_mouse_move json_dumps a ev)
  /\ only_cleared a (Client.on_mouse_click json_dumps a ev button pressed)
  /\ only_cleared a (Client.on_mouse_scroll json_dumps a ev)
  /\ only_cleared a (Client.on_key_press json_dumps a ev)
  /\ only_cleared a (Client.on_key_release json_dumps a ev)
  /\ only_cleared a (Main.stop_client_and_return_to_main os_error a)
  /\ only_cleared a (Main.mainloop os_error a).
Proof.
  repeat match goal with |- _ /\ _ => split end.
  - unfold Client.receive_screen_data.
    pose proof (screen_receive_loop_only_clears image_size photo_image
                  a conn) as L.
    destruct (Client.receive_screen_loop _ _ a conn) as [a' c]. exact L.
  - unfold Client.on_mouse_move.
    destruct (Client.get_scaled_coords a ev) as [[x y]|];
      [apply send_input_command_only_clears|apply only_cleared_refl].
  - unfold Client.on_mouse_click.
    destruct (Client.get_scaled_coords a ev) as [[x y]|];
      [apply send_input_command_only_clears|apply only_cleared_refl].
  - apply send_input_command_only_clears.
  - apply send_input_command_only_clears.
  - apply send_input_command_only_clears.
  - apply (run_call_only_clears os_error a App.stop_client_and_return_to_main).
  - pose proof (run_calls_only_clear os_error (ui_queue a)
                  (mkApp (screen_sharing_active a) (input_control_active a)
                         (client_socket a) (remote_image_tk a)
                         (remote_screen_label a) (stdout a) [] (injected a)))
      as L.
    exact L.
Qed.

(** X5. Back to idle.  When [receive_screen_data] has returned, for
    whatever reason, and the main loop has run the calls it queued, both
    flags are down and the socket attribute is [None], so that every
    later command is dropped without a send. *)
Theorem client_returns_to_idle
        (json_dumps : value -> string)
        (image_size : bytes -> option (Z * Z))
        (photo_image : bytes -> Z * Z -> bool)
        (a : app) (conn : socket) (os_error : bool)
        (command_type : string) (kwargs : dict) :
  let idle :=
    Main.mainloop os_error
      (fst (Client.receive_screen_data image_size photo_image a conn)) in
  torn_down idle
  /\ client_socket idle = None
  /\ ui_queue idle = []
  /\ Client.send_input_command json_dumps idle command_type kwargs = idle.
Proof.
  intro idle.
  assert (T : torn_down idle /\ client_socket idle = None
              /\ ui_queue idle = []).
  { subst idle. unfold Client.receive_screen_data.
    destruct (Client.receive_screen_loop _ _ a conn) as [a' c].
    unfold Main.mainloop; simpl. rewrite fold_left_app; simpl.
    set (b := fold_left _ _ _).
    destruct (stop_client_stops os_error b) as [D S].
    repeat split; try apply D; auto.
    rewrite stop_client_queue. subst b. now apply run_calls_queue. }
  destruct T as ([S I] & K & Q). repeat split; auto.
  unfold Client.send_input_command. now rewrite I.
Qed.

(** ** From a client event to the simulated input *)

(** The setting in which a command [v] of the client [a] reaches the host:
    the session is live, the socket [tx] takes the writes, [json.dumps]
    gives UTF-8 text of a length the header can hold which [json.loads]
    reads back as [v], and the host reads from the other end under a
    schedule [ev] that raises nothing and hands the header over whole. *)
Definition delivers (json_dumps : value -> string)
           (json_loads : string -> result value)
           (a : app) (tx : socket) (v : value) (ev : list recv_event)
  : Prop :=
  input_control_active a = true
  /\ client_socket a = Some tx
  /\ outbound tx = [] /\ writable tx
  /\ (len (Utf8.encode (json_dumps v)) < 4294967296)%N
  /\ Utf8.well_formed (Utf8.encode (json_dumps v)) = true
  /\ json_loads (json_dumps v) = Ok v
  /\ first_whole 4 ev /\ quiet ev.

Section Delivery.

Variable json_dumps : value -> string.
Variable json_loads : string -> result value.
Variable special_key : string -> bool.
Variable os_accepts : injection -> bool.

(** The command [command_type], [kwargs] is written as one frame, and the
    pass of the host that reads it ends as the dispatch of the very same
    dictionary ends. *)
Lemma command_delivery a tx command_type kwargs ev h :
  delivers json_dumps json_loads a tx
           (JDict (Client.command command_type kwargs)) ev ->
  exists tx' c,
    Client.send_input_command json_dumps a command_type kwargs
    = set_socket a (Some tx')
    /\ inbound c = []
    /\ Host.receive_input_pass json_loads special_key os_accepts h
         (far_end tx' ev)
       = match Host.dispatch special_key os_accepts
                 (JDict (Client.command command_type kwargs)) h with
         | (Ok _, h1) => (Continue, h1, c)
         | (Raise e, h1) => (Host.input_handler e h1, c)
         end.
Proof.
  intros (I & S & O & W & L & U & RT & F & Q).
  set (v := JDict (Client.command command_type kwargs)) in *.
  set (payload := Utf8.encode (json_dumps v)) in *.
  destruct (to_bytes4_defined _ L) as (header & H).
  destruct (sendall_writable tx header W) as (t1 & S1 & O1 & W1).
  destruct (sendall_writable t1 payload W1) as (tx' & S2 & O2 & _).
  assert (SM : send_message tx payload = (Ok tt, tx')).
  { unfold send_message. now rewrite H, S1. }
  assert (OB : outbound tx' = header ++ payload ++ []).
  { now rewrite O2, O1, O, app_nil_r. }
  destruct (recv_message_frame (far_end tx' ev) header payload [] H OB F Q)
    as (c & M & IC & _).
  exists tx', c. repeat split; auto.
  - unfold Client.send_input_command. rewrite I, S. fold v payload.
    now rewrite SM.
  - unfold Host.receive_input_pass, Host.interpret. rewrite M.
    unfold Utf8.decode. rewrite U. unfold payload, Utf8.encode.
    rewrite string_of_list_byte_of_string, RT.
    destruct (Host.dispatch special_key os_accepts v h) as [[u|e] h1];
      reflexivity.
Qed.

End Delivery.


(** A live client showing an image of 400 by 300 on a label of 800 by 600,
    with a fresh socket. *)
Definition live_client : app :=
  mkApp true true (Some (mkSocket [] [] [] [])) (Some (400, 300)%Z)
        (800, 600)%Z [] [] [].

Ltac delivery_holds :=
  unfold delivers, writable;
  repeat match goal with |- _ /\ _ => split end;
  first [ reflexivity
        | vm_compute; reflexivity
        | simpl; lia
        | repeat constructor; eexists; reflexivity ].


(** X7. A click, end to end.  When the command is delivered, that is
    written without an error, read back by [json.loads] as the object
    [json.dumps] was given, and read at the host by reads that raise
    nothing and of which the first hands over the whole header, and when
    the system accepts the two injections, the host first sets the pointer
    to the coordinates of the event and then presses or releases a button:
    the left one for the button name [left], the right one for every other
    name. *)
Theorem click_end_to_end
        (json_dumps : value -> string) (json_loads : string -> result value)
        (special_key : string -> bool) (os_accepts : injection -> bool)
        (a h : app) (tx : socket) (ev : list recv_event)
        (event : Client.event) (button : string) (pressed : bool) (x y : Z) :
  let b := if String.eqb button "left" then left else right in
  let act := if pressed then mouse_press b else mouse_release b in
  Client.get_scaled_coords a event = Some (x, y) ->
  delivers json_dumps json_loads a tx
    (JDict (Client.command "mouse_click"
              [("x", JInt x); ("y", JInt y); ("button", JStr button);
               ("pressed", JBool pressed)]%string))
    ev ->
  os_accepts (set_position (JInt x) (JInt y)) = true ->
  os_accepts act = true ->
  exists tx' c,
    Client.on_mouse_click json_dumps a event button pressed
    = set_socket a (Some tx')
    /\ Host.receive_input_pass json_loads special_key os_accepts h
         (far_end tx' ev)
       = (Continue, inject (inject h (set_position (JInt x) (JInt y))) act, c)
    /\ inbound c = [].
Proof.
  intros b act G D A1 A2.
  destruct (command_delivery json_dumps json_loads special_key os_accepts
              a tx _ _ ev h D) as (tx' & c & S & IC & P).
  exists tx', c. unfold Client.on_mouse_click. rewrite G.
  repeat split; auto.
  rewrite P. cbn. unfold Host.and_then, Host.simulate. rewrite A1.
  subst act b. destruct pressed; now rewrite A2.
Qed.

Lemma click_end_to_end_witness :
  exists tx' c,
    Client.on_mouse_click JsonFragment.dumps live_client (pointer_at 300 200)
      "middle" true
    = set_socket live_client (Some tx')
    /\ Host.receive_input_pass JsonFragment.loads (fun _ => false)
         (fun _ => true) in_session (far_end tx' [Deliver 3; Deliver 15])
       = (Continue,
          inject (inject in_session (set_position (JInt 100) (JInt 50)))
                 (mouse_press right),
          c)
    /\ inbound c = [].
Proof.
  apply (click_end_to_end JsonFragment.dumps JsonFragment.loads
           (fun _ => false) (fun _ => true) live_client in_session
           (mkSocket [] [] [] []) [Deliver 3; Deliver 15]
           (pointer_at 300 200) "middle" true 100 50).
  - vm_compute; reflexivity.
  - delivery_holds.
  - reflexivity.
  - reflexivity.
Defined.

(** X8. A key, end to end.  When the command is delivered, that is
    written without an error, read back by [json.loads] as the object
    [json.dumps] was given, and read at the host by reads that raise
    nothing and of which the first hands over the whole header, and when
    the system accepts the injection, then for a key press and for a key
    release the host resolves the name the client made of the keysym: to
    the member of [pynput.keyboard.Key] of that name when there is one, to
    the character otherwise, and presses or releases that key. *)
Theorem key_end_to_end
        (json_dumps : value -> string) (json_loads : string -> result value)
        (special_key : string -> bool) (os_accepts : injection -> bool)
        (a h : app) (tx : socket) (ev : list recv_event)
        (event : Client.event) :
  let resolved name :=
    if special_key name then Key name else KeyCode (JStr name) in
  let pressed_name := Client.key_name_press (Client.event_keysym event) in
  let released_name := Client.key_name_release (Client.event_keysym event) in
  (delivers json_dumps json_loads a tx
     (JDict (Client.command "key_event"
               [("key", JStr pressed_name); ("pressed", JBool true)]%string))
     ev ->
   os_accepts (keyboard_press (resolved pressed_name)) = true ->
   exists tx' c,
     Client.on_key_press json_dumps a event = set_socket a (Some tx')
     /\ Host.receive_input_pass json_loads special_key os_accepts h
          (far_end tx' ev)
        = (Continue, inject h (keyboard_press (resolved pressed_name)), c))
  /\ (delivers json_dumps json_loads a tx
        (JDict (Client.command "key_event"
                  [("key", JStr released_name);
                   ("pressed", JBool false)]%string))
        ev ->
      os_accepts (keyboard_release (resolved released_name)) = true ->
      exists tx' c,
        Client.on_key_release json_dumps a event = set_socket a (Some tx')
        /\ Host.receive_input_pass json_loads special_key os_accepts h
             (far_end tx' ev)
           = (Continue, inject h (keyboard_release (resolved released_name)),
              c)).
Proof.
  intros resolved pressed_name released_name. split; intros D A.
  - unfold Client.on_key_press. fold pressed_name.
    clearbody pressed_name. clear released_name.
    destruct (command_delivery json_dumps json_loads special_key os_accepts
                a tx _ _ ev h D) as (tx' & c & S & IC & P).
    exists tx', c. split; [exact S|].
    rewrite P. subst resolved. cbv beta in A.
    cbn. unfold Host.resolve_key, Host.simulate.
    destruct (special_key pressed_name); cbn; now rewrite A.
  - unfold Client.on_key_release. fold released_name.
    clearbody released_name. clear pressed_name.
    destruct (command_delivery json_dumps json_loads special_key os_accepts
                a tx _ _ ev h D) as (tx' & c & S & IC & P).
    exists tx', c. split; [exact S|].
    rewrite P. subst resolved. cbv beta in A.
    cbn. unfold Host.resolve_key, Host.simulate.
    destruct (special_key released_name); cbn; now rewrite A.
Qed.

Lemma key_end_to_end_witness :
  (exists tx' c,
      Client.on_key_press JsonFragment.dumps live_client
        (Client.mkEvent 0 0 None 0 "Return")
      = set_socket live_client (Some tx')
      /\ Host.receive_input_pass JsonFragment.loads
           (fun name => String.eqb name "enter") (fun _ => true) in_session
           (far_end tx' [Deliver 3; Deliver 15])
         = (Continue, inject in_session (keyboard_press (Key "enter")), c))
  /\ (exists tx' c,
         Client.on_key_release JsonFragment.dumps live_client
           (Client.mkEvent 0 0 None 0 "q")
         = set_socket live_client (Some tx')
         /\ Host.receive_input_pass JsonFragment.loads
              (fun name => String.eqb name "enter") (fun _ => true)
              in_session (far_end tx' [Deliver 3; Deliver 15])
            = (Continue,
               inject in_session (keyboard_release (KeyCode (JStr "q"))), c)).
Proof.
  split.
  - apply (proj1 (key_end_to_end JsonFragment.dumps JsonFragment.loads
                    (fun name => String.eqb name "enter") (fun _ => true)
                    live_client in_session (mkSocket [] [] [] [])
                    [Deliver 3; Deliver 15]
                    (Client.mkEvent 0 0 None 0 "Return")));
      [delivery_holds|reflexivity].
  - apply (proj2 (key_end_to_end JsonFragment.dumps JsonFragment.loads
                    (fun name => String.eqb name "enter") (fun _ => true)
                    live_client in_session (mkSocket [] [] [] [])
                    [Deliver 3; Deliver 15]
                    (Client.mkEvent 0 0 None 0 "q")));
      [delivery_holds|reflexivity].
Defined.

(** ** Commands with a field missing *)

(** The fields the branch of each command type reads. *)
Definition required_fields (command_type : string) : list string :=
  if String.eqb command_type "mouse_move" then ["x"; "y"]%string
  else if String.eqb command_type "mouse_click"
       then ["x"; "y"; "button"; "pressed"]%string
  else if String.eqb command_type "key_event" then ["key"; "pressed"]%string
  else if String.eqb command_type "scroll" then ["dx"; "dy"]%string
  else [].

Lemma dispatch_missing_field special_key os_accepts d t f a :
  lookup "type" d = Some (JStr t) -> In f (required_fields t) ->
  lookup f d = None ->
  Host.dispatch special_key os_accepts (JDict d) a = (Raise OtherError, a).
Proof.
  intros T F M. unfold Host.dispatch. rewrite T. cbn [is_str].
  unfold required_fields in F.
  repeat match type of F with
         | In _ (if ?c then _ else _) => destruct c
         end;
    simpl in F;
    repeat match type of F with
           | _ \/ _ => destruct F as [F|F]
           end;
    try contradiction; subst f;
    unfold Host.item, Host.raise; rewrite ?M;
    repeat match goal with
           | |- context [lookup ?k d] => destruct (lookup k d)
           end;
    reflexivity.
Qed.

(** X9. A missing field ends the session.  A JSON object of a known type
    that lacks one of the fields its branch reads raises in the middle of
    the [try] body: the generic handler clears both flags and ends the
    loop, and nothing has been injected. *)
Theorem missing_field_is_fatal
        (json_loads : string -> result value)
        (special_key : string -> bool) (os_accepts : injection -> bool)
        (a : app) (conn c : socket) (payload : bytes) (text : string)
        (d : dict) (t f : string) :
  recv_message conn = (Message payload, c) ->
  Utf8.decode payload = Some text ->
  json_loads text = Ok (JDict d) ->
  lookup "type" d = Some (JStr t) ->
  In f (required_fields t) -> lookup f d = None ->
  exists a',
    Host.receive_input_pass json_loads special_key os_accepts a conn
    = (Break, a', c)
    /\ torn_down a' /\ injected a' = injected a
    /\ stdout a' = stdout a ++ ["Error receiving/processing input data"%string].
Proof.
  intros M D L T F N.
  exists (set_flags (print a "Error receiving/processing input data")
                    false false).
  repeat split.
  unfold Host.receive_input_pass, Host.interpret. rewrite M, D, L.
  now rewrite (dispatch_missing_field special_key os_accepts d t f a T F N).
Qed.

Lemma missing_field_is_fatal_witness :
  let conn :=
    mkSocket (wire (JDict [("type", JStr "mouse_move"); ("x", JInt 1)]%string))
             [] [] [] in
  exists a',
    Host.receive_input_pass JsonFragment.loads (fun _ => false)
      (fun _ => true) in_session conn
    = (Break, a', mkSocket [] [] [] [])
    /\ torn_down a' /\ injected a' = injected in_session
    /\ stdout a'
       = stdout in_session ++ ["Error receiving/processing input data"%string].
Proof.
  intro conn.
  apply (missing_field_is_fatal JsonFragment.loads (fun _ => false)
           (fun _ => true) in_session conn (mkSocket [] [] [] [])
           (Utf8.encode
              (JsonFragment.dumps
                 (JDict [("type", JStr "mouse_move"); ("x", JInt 1)]%string)))
           (JsonFragment.dumps
              (JDict [("type", JStr "mouse_move"); ("x", JInt 1)]%string))
           [("type", JStr "mouse_move"); ("x", JInt 1)]%string
           "mouse_move" "y");
    try reflexivity.
  simpl. tauto.
Defined.

(** ** The screen loop writes whole frames *)

Lemma send_message_framed s payload :
  writable s -> (len payload < 4294967296)%N ->
  exists s', send_message s payload = (Ok tt, s')
             /\ outbound s' = outbound s ++ stream_of [payload]
             /\ writable s'.
Proof.
  intros W L.
  destruct (to_bytes4_defined _ L) as (header & H).
  destruct (sendall_writable s header W) as (s1 & S1 & O1 & W1).
  destruct (sendall_writable s1 payload W1) as (s2 & S2 & O2 & W2).
  exists s2. repeat split; auto.
  - unfold send_message. now rewrite H, S1.
  - simpl. unfold frame. rewrite H, O2, O1, app_nil_r. now rewrite <- app_assoc.
Qed.



(** X11. A frame, end to end.  When the writes of the host raise
    nothing, the reads of the client raise nothing and the first of them
    hands over the whole header, and the captured bytes decode to an image
    that can be resized for the current label, then what one pass of
    [send_screen_data] writes is, at the other end, one message to the
    pass of [receive_screen_data]: the image is decoded from exactly the
    captured bytes, the [PhotoImage] kept for the pointer mapping has the
    size [displayed_size] gives on the current label, and its display is
    queued. *)
Theorem frame_end_to_end
        (image_size : bytes -> option (Z * Z))
        (photo_image : bytes -> Z * Z -> bool)
        (h a : app) (conn : socket) (ev : list recv_event)
        (img : bytes) (size shown : Z * Z) :
  writable conn -> outbound conn = [] -> (len img < 4294967296)%N ->
  first_whole 4 ev -> quiet ev ->
  image_size img = Some size ->
  Client.displayed_size size (remote_screen_label a) = Some shown ->
  photo_image img shown = true ->
  exists conn' c,
    Host.send_screen_pass (Some img) h conn = (Continue, h, conn')
    /\ Client.receive_screen_pass image_size photo_image a (far_end conn' ev)
       = (Continue, after (set_image a shown) show_image, c)
    /\ inbound c = []
    /\ remote_image_tk (after (set_image a shown) show_image) = Some shown.
Proof.
  intros W O L F Q I D P.
  destruct (to_bytes4_defined _ L) as (header & H).
  destruct (send_message_writable conn img header W H) as (conn' & M & O').
  rewrite O in O'; simpl in O'.
  destruct (recv_message_frame (far_end conn' ev) header img [])
    as (c & R & IC & _); auto.
  { simpl. now rewrite O', app_nil_r. }
  exists conn', c. repeat split; auto.
  - unfold Host.send_screen_pass. now rewrite M.
  - unfold Client.receive_screen_pass. now rewrite R, I, D, P.
Qed.

Lemma frame_end_to_end_witness :
  exists conn' c,
    Host.send_screen_pass (Some [xff; xd8; xff; xd9]) in_session
      (mkSocket [] [] [] [])
    = (Continue, in_session, conn')
    /\ Client.receive_screen_pass (fun _ => Some (1920, 1080)%Z)
         (fun _ _ => true) live_client (far_end conn' [Deliver 3; Deliver 1])
       = (Continue, after (set_image live_client (800, 450)%Z) show_image, c)
    /\ inbound c = []
    /\ remote_image_tk (after (set_image live_client (800, 450)%Z) show_image)
       = Some (800, 450)%Z.
Proof.
  apply (frame_end_to_end (fun _ => Some (1920, 1080)%Z) (fun _ _ => true)
           in_session live_client (mkSocket [] [] [] [])
           [Deliver 3; Deliver 1] [xff; xd8; xff; xd9]
           (1920, 1080)%Z (800, 450)%Z).
  - constructor.
  - reflexivity.
  - vm_compute; reflexivity.
  - simpl; lia.
  - repeat constructor; eexists; reflexivity.
  - reflexivity.
  - vm_compute; reflexivity.
  - reflexivity.
Defined.

(** ** The end of the stream *)

Section EndOfStream.

Variable json_loads : string -> result value.
Variable special_key : string -> bool.
Variable os_accepts : injection -> bool.
Variable image_size : bytes -> option (Z * Z).
Variable photo_image : bytes -> Z * Z -> bool.

Lemma screen_loop_unfold a conn :
  Client.receive_screen_loop image_size photo_image a conn
  = if screen_sharing_active a then
      match Client.receive_screen_pass image_size photo_image a conn with
      | (Continue, a', conn') =>
          Client.receive_screen_loop image_size photo_image a' conn'
      | (Break, a', conn') => (a', conn')
      end
    else (a, conn).
Proof.
  funelim (Client.receive_screen_loop image_size photo_image a conn);
    forget_inspect; rewrite Heq.
  - reflexivity.
  - rewrite e. reflexivity.
  - rewrite e. reflexivity.
Qed.

Lemma input_loop_at_end a conn :
  quiet (arrivals conn) -> inbound conn = [] ->
  fst (Host.receive_input_loop json_loads special_key os_accepts a conn) = a.
Proof.
  intros Q I. rewrite receive_input_loop_unfold.
  destruct (input_control_active a); [|reflexivity].
  destruct (recv_message_at_end conn Q I) as (c & M & _).
  unfold Host.receive_input_pass. now rewrite M.
Qed.

Lemma screen_loop_at_end a conn :
  quiet (arrivals conn) -> inbound conn = [] ->
  fst (Client.receive_screen_loop image_size photo_image a conn) = a.
Proof.
  intros Q I. rewrite screen_loop_unfold.
  destruct (screen_sharing_active a); [|reflexivity].
  destruct (recv_message_at_end conn Q I) as (c & M & _).
  unfold Client.receive_screen_pass. now rewrite M.
Qed.

(** A header that announces more than the stream still holds. *)
Lemma recv_message_truncated conn len_bytes c1 :
  quiet (arrivals conn) -> recv conn 4 = (Ok len_bytes, c1) ->
  len_bytes <> [] -> (len (inbound c1) < from_bytes len_bytes)%N ->
  exists c2, recv_message conn = (Incomplete (inbound c1), c2)
             /\ inbound c2 = [] /\ quiet (arrivals c2).
Proof.
  intros Q R NE L.
  assert (Q1 : quiet (arrivals c1)).
  { destruct (recv_quiet conn 4 Q) as (k & _ & R'); [lia|].
    rewrite R' in R. inversion R; subst; simpl. now apply quiet_tl. }
  destruct (recv_payload_quiet c1 (from_bytes len_bytes) [] Q1)
    as (c2 & R2 & I2 & Q2 & _).
  change (len []) with 0%N in *. rewrite N.sub_0_r in *. simpl in R2.
  assert (T : take (from_bytes len_bytes) (inbound c1) = inbound c1).
  { unfold take, len in *. apply firstn_all2. lia. }
  assert (D : drop (from_bytes len_bytes) (inbound c1) = []).
  { unfold drop, len in *. apply skipn_all2. lia. }
  rewrite T in R2. rewrite D in I2.
  exists c2. repeat split; auto.
  unfold recv_message. rewrite R.
  destruct len_bytes as [|b p]; [contradiction|]. rewrite R2.
  destruct (N.eqb_spec (len (inbound c1)) (from_bytes (b :: p))); [lia|].
  reflexivity.
Qed.

End EndOfStream.

(** X12. An orderly close clears no flag.  When the peer has closed the
    connection and nothing is pending, [receive_input_data] returns with
    the application as it was, its closing line apart: where a reset
    clears both flags, the end of the stream clears none.  On the client
    [receive_screen_data] returns the same way and queues the return to
    the main menu. *)
Theorem end_of_stream_keeps_flags
        (json_loads : string -> result value)
        (special_key : string -> bool) (os_accepts : injection -> bool)
        (image_size : bytes -> option (Z * Z))
        (photo_image : bytes -> Z * Z -> bool)
        (a : app) (conn : socket) :
  quiet (arrivals conn) -> inbound conn = [] ->
  fst (Host.receive_input_data json_loads special_key os_accepts a conn)
  = print a "Input receive thread stopped."
  /\ fst (Client.receive_screen_data image_size photo_image a conn)
     = after (print a "Screen receive thread stopped.")
             stop_client_and_return_to_main.
Proof.
  intros Q I. split.
  - unfold Host.receive_input_data.
    pose proof (input_loop_at_end json_loads special_key os_accepts
                  a conn Q I) as E.
    destruct (Host.receive_input_loop _ _ _ a conn); simpl in E. now subst.
  - unfold Client.receive_screen_data.
    pose proof (screen_loop_at_end image_size photo_image a conn Q I) as E.
    destruct (Client.receive_screen_loop _ _ a conn); simpl in E. now subst.
Qed.

Lemma end_of_stream_keeps_flags_witness :
  fst (Host.receive_input_data JsonFragment.loads (fun _ => false)
         (fun _ => true) in_session (mkSocket [] [Deliver 0] [] []))
  = print in_session "Input receive thread stopped."
  /\ fst (Client.receive_screen_data (fun _ => None) (fun _ _ => true)
            in_session (mkSocket [] [Deliver 0] [] []))
     = after (print in_session "Screen receive thread stopped.")
             stop_client_and_return_to_main.
Proof.
  apply end_of_stream_keeps_flags.
  - repeat constructor; eexists; reflexivity.
  - reflexivity.
Defined.

(** X13. A message cut off by the end of the stream.  When no read
    raises and the bytes left in the stream after the header read are
    fewer than the number decoded from the header bytes that this read
    returned (the declared length, when the header was read whole), the
    loop that is running drops the bytes it got, prints its notice, finds
    the stream closed on its next pass and returns: the flags are as they
    were, and nothing was injected or displayed. *)
Theorem truncated_tail_ends_quietly
        (json_loads : string -> result value)
        (special_key : string -> bool) (os_accepts : injection -> bool)
        (image_size : bytes -> option (Z * Z))
        (photo_image : bytes -> Z * Z -> bool)
        (a : app) (conn c1 : socket) (len_bytes : bytes) :
  quiet (arrivals conn) ->
  recv conn 4 = (Ok len_bytes, c1) -> len_bytes <> [] ->
  (len (inbound c1) < from_bytes len_bytes)%N ->
  (input_control_active a = true ->
   fst (Host.receive_input_data json_loads special_key os_accepts a conn)
   = print (print a "Incomplete input data received.")
           "Input receive thread stopped.")
  /\ (screen_sharing_active a = true ->
      fst (Client.receive_screen_data image_size photo_image a conn)
      = after (print (print a "Incomplete image data received.")
                     "Screen receive thread stopped.")
              stop_client_and_return_to_main).
Proof.
  intros Q R NE L.
  destruct (recv_message_truncated conn len_bytes c1 Q R NE L)
    as (c2 & M & I2 & Q2).
  split; intro Act.
  - unfold Host.receive_input_data.
    rewrite receive_input_loop_unfold, Act.
    unfold Host.receive_input_pass at 1. rewrite M.
    pose proof (input_loop_at_end json_loads special_key os_accepts
                  (print a "Incomplete input data received.") c2 Q2 I2) as E.
    destruct (Host.receive_input_loop _ _ _ _ c2); simpl in E. now subst.
  - unfold Client.receive_screen_data.
    rewrite screen_loop_unfold, Act.
    unfold Client.receive_screen_pass at 1. rewrite M.
    pose proof (screen_loop_at_end image_size photo_image
                  (print a "Incomplete image data received.") c2 Q2 I2) as E.
    destruct (Client.receive_screen_loop _ _ _ c2); simpl in E. now subst.
Qed.

Lemma truncated_tail_ends_quietly_witness :
  let conn := mkSocket [x00; x00; x01; x00; x7b; x7d] [] [] [] in
  fst (Host.receive_input_data JsonFragment.loads (fun _ => false)
         (fun _ => true) in_session conn)
  = print (print in_session "Incomplete input data received.")
          "Input receive thread stopped."
  /\ fst (Client.receive_screen_data (fun _ => None) (fun _ _ => true)
            in_session conn)
     = after (print (print in_session "Incomplete image data received.")
                    "Screen receive thread stopped.")
             stop_client_and_return_to_main.
Proof.
  intro conn.
  destruct (truncated_tail_ends_quietly JsonFragment.loads (fun _ => false)
              (fun _ => true) (fun _ => None) (fun _ _ => true) in_session
              conn (mkSocket [x7b; x7d] [] [] []) [x00; x00; x01; x00])
    as [H1 H2];
    [constructor|reflexivity|discriminate|vm_compute; reflexivity|].
  split; [apply H1|apply H2]; reflexivity.
Defined.

(** ** Commands are written whole and in order *)

(** The bytes [send_input_command] frames for a command. *)
Definition command_json (json_dumps : value -> string)
           (c : string * dict) : bytes :=
  Utf8.encode (json_dumps (JDict (Client.command (fst c) (snd c)))).

(** X14. One frame per command.  While the sends succeed, the commands
    of successive events are written as one whole frame each, in the
    order of the events, and the client changes in nothing but what its
    socket has written. *)
Theorem commands_written_in_order
        (json_dumps : value -> string) (cmds : list (string * dict))
        (a : app) (tx : socket) :
  input_control_active a = true -> client_socket a = Some tx ->
  writable tx -> framable (map (command_json json_dumps) cmds) ->
  exists tx',
    fold_left (fun a c => Client.send_input_command json_dumps a (fst c) (snd c))
              cmds a
    = set_socket a (Some tx')
    /\ outbound tx'
       = outbound tx ++ stream_of (map (command_json json_dumps) cmds)
    /\ inbound tx' = inbound tx.
Proof.
  revert a tx. induction cmds as [|c cmds IH]; intros a tx I S W F.
  - exists tx. simpl. rewrite app_nil_r. repeat split.
    destruct a; simpl in *; now subst.
  - inversion F as [|? ? L F']; subst.
    destruct (send_message_framed tx _ W L) as (t1 & M & O1 & W1).
    assert (E : Client.send_input_command json_dumps a (fst c) (snd c)
                = set_socket a (Some t1)).
    { unfold Client.send_input_command. rewrite I, S.
      unfold command_json in M. now rewrite M. }
    destruct (IH (set_socket a (Some t1)) t1) as (tx' & R & O & IN); auto.
    exists tx'. simpl fold_left. rewrite E, R. repeat split.
    + rewrite O, O1, <- app_assoc. f_equal. simpl. now rewrite app_nil_r.
    + rewrite IN. now destruct (send_message_reading_side _ _ _ _ M).
Qed.

Lemma commands_written_in_order_witness :
  let cmds :=
    [("mouse_move", [("x", JInt 1); ("y", JInt 2)]);
     ("key_event", [("key", JStr "a"); ("pressed", JBool true)])]%string in
  exists tx',
    fold_left (fun a c => Client.send_input_command JsonFragment.dumps a
                            (fst c) (snd c))
              cmds live_client
    = set_socket live_client (Some tx')
    /\ outbound tx'
       = outbound (mkSocket [] [] [] [])
         ++ stream_of (map (command_json JsonFragment.dumps) cmds)
    /\ inbound tx' = inbound (mkSocket [] [] [] []).
Proof.
  intro cmds. apply commands_written_in_order.
  - reflexivity.
  - reflexivity.
  - constructor.
  - repeat constructor.
Defined.

(** ** The accept loop, further *)

Section SupervisorMore.

Import Supervisor.

Lemma finish_nth_length n w : forall l l',
  finish_nth n w l = Some l' -> List.length l' = List.length l.
Proof.
  induction n as [|n IH]; intros [|s l] l'; simpl; try discriminate.
  - destruct (finish w s); [|discriminate]. intro H; inversion H; reflexivity.
  - destruct (finish_nth n w l) as [l1|] eqn:E; [|discriminate].
    intro H; inversion H; simpl. f_equal. now apply IH.
Qed.






End SupervisorMore.

(** X15. Once the accept loop has left by [break], it accepts nothing
    more: whatever the workers still do, the listener stays stopped and
    no session is added. *)
Theorem accept_loop_stops_for_good (trace : list Supervisor.event) :
  forall h h',
    Supervisor.listener h = Supervisor.stopped ->
    Supervisor.run h trace = Some h' ->
    Supervisor.listener h' = Supervisor.stopped
    /\ List.length (Supervisor.sessions h')
       = List.length (Supervisor.sessions h).
Proof.
  induction trace as [|e trace IH]; simpl; intros h h' S R.
  - inversion R; subst; auto.
  - destruct (Supervisor.step h e) as [h1|] eqn:E; [|discriminate].
    destruct h as [p l]; simpl in S; subst p.
    unfold Supervisor.step in E; simpl in E.
    destruct e; try discriminate.
    destruct (Supervisor.finish_nth n w l) as [l'|] eqn:F; [|discriminate].
    inversion E; subst.
    destruct (IH (Supervisor.mkHost Supervisor.stopped l') h' eq_refl R)
      as [S' L']. split; [exact S'|].
    rewrite L'. simpl. eapply finish_nth_length; eauto.
Qed.

Lemma accept_loop_stops_for_good_witness :
  let h := Supervisor.mkHost Supervisor.stopped
             [Supervisor.mkSession Supervisor.alive Supervisor.alive] in
  let h' := Supervisor.mkHost Supervisor.stopped
              [Supervisor.mkSession Supervisor.finished Supervisor.alive] in
  Supervisor.listener h' = Supervisor.stopped
  /\ List.length (Supervisor.sessions h')
     = List.length (Supervisor.sessions h).
Proof.
  intros h h'.
  apply (accept_loop_stops_for_good
           [Supervisor.returned 0 Supervisor.screen_send] h h');
    reflexivity.
Defined.


